(** * std_comms: the NCCL + UCX communicator of raft

    A shallow embedding of [cpp/include/raft/comms/std/std_comms.hpp]:
    the request registry ([get_request_id], the in-flight table and the
    free set), the point-to-point engine ([isend], [irecv], [waitall]),
    the collective facade ([allreduce], [allgatherv], [barrier],
    [commSplit]) and the stream monitor ([syncStream]).

    The external runtimes (NCCL, CUDA, UCX, the clock) are not part of
    the class: every call into them is an event answered by an
    [Environment], and the model records the events in a trace. *)

From Stdlib Require Import ZArith List.
From stdpp Require Import base gmap sets list.

#[local] Set Warnings "-clear-no-such-hyp".

Local Open Scope Z_scope.

(** ** Portable enumerations and their translation *)

Module comms.

(** [datatype_t] and [op_t] of comms.hpp, as the switch statements of
    this file enumerate them. *)
Inductive datatype_t :=
| CHAR | UINT8 | INT | UINT | INT64 | UINT64 | FLOAT | DOUBLE.

Inductive op_t := SUM | PROD | MIN | MAX.

End comms.

Inductive ncclDataType_t :=
| ncclChar | ncclUint8 | ncclInt | ncclUint32
| ncclInt64 | ncclUint64 | ncclFloat | ncclDouble.

Inductive ncclRedOp_t := ncclSum | ncclProd | ncclMin | ncclMax.

(** Result codes of the two runtimes.  Only the codes the class tests
    for are named; every other code is an error with its number. *)
Inductive ncclResult_t := ncclSuccess | ncclError (code : Z).

Inductive cudaError_t :=
| cudaSuccess | cudaErrorNotReady | cudaErrorOther (code : Z).

(** [status_t] of comms.hpp: the three values [syncStream] returns. *)
Inductive status_t :=
| commStatusSuccess | commStatusError | commStatusAbort.

#[global] Instance ncclResult_eq_dec : EqDecision ncclResult_t.
Proof. solve_decision. Defined.
#[global] Instance cudaError_eq_dec : EqDecision cudaError_t.
Proof. solve_decision. Defined.
#[global] Instance status_eq_dec : EqDecision status_t.
Proof. solve_decision. Defined.

(** sizeof on the LP64 data model the library is built for. *)
Definition getDatatypeSize (datatype : comms.datatype_t) : Z :=
  match datatype with
  | comms.CHAR => 1
  | comms.UINT8 => 1
  | comms.INT => 4
  | comms.UINT => 4
  | comms.INT64 => 8
  | comms.UINT64 => 8
  | comms.FLOAT => 4
  | comms.DOUBLE => 8
  end.

Definition getNCCLDatatype (datatype : comms.datatype_t) : ncclDataType_t :=
  match datatype with
  | comms.CHAR => ncclChar
  | comms.UINT8 => ncclUint8
  | comms.INT => ncclInt
  | comms.UINT => ncclUint32
  | comms.INT64 => ncclInt64
  | comms.UINT64 => ncclUint64
  | comms.FLOAT => ncclFloat
  | comms.DOUBLE => ncclDouble
  end.

Definition getNCCLOp (op : comms.op_t) : ncclRedOp_t :=
  match op with
  | comms.SUM => ncclSum
  | comms.PROD => ncclProd
  | comms.MIN => ncclMin
  | comms.MAX => ncclMax
  end.

(** ** Machine integers and addresses *)

(** [size_t] and pointers are 64 bits wide; arithmetic on them wraps. *)
Definition size_t_modulus : Z := 2 ^ 64.
Definition to_size_t (z : Z) : Z := z mod size_t_modulus.
Definition size_t_mul (a b : Z) : Z := (a * b) mod size_t_modulus.
Definition ptr_add (p off : Z) : Z := (p + off) mod size_t_modulus.

(** Modelled from the spec: [request_t] is declared in comms.hpp, which
    is not part of this file.  The spec calls a request identifier an
    opaque process-local integer drawn from a monotonically increasing
    counter, so identifiers are integers and [++] never wraps. *)
Abbreviation request_t := Z.

(** ** The UCX request record kept in the in-flight table *)

(** [struct ucp_request] of ucp_helper.hpp, with the fields [waitall]
    reads.  [req] is the address of the UCX context whose [completed]
    flag the transport's callbacks set. *)
Record ucp_request := {
  req : Z;
  needs_release : bool;
  other_rank : Z;
  is_send_request : bool
}.

#[global] Instance ucp_request_eq_dec : EqDecision ucp_request.
Proof. solve_decision. Defined.

(** ** The communicator object *)

Record std_comms := {
  _nccl_comm : Z;
  _stream : Z;
  _sendbuff : Z;
  _recvbuff : Z;
  _size : Z;
  _rank : Z;
  p2p_enabled : bool;
  _ucp_worker : Z;                      (* 0 is nullptr *)
  _ucp_eps : Z → Z;                     (* the endpoint array, by index *)
  _next_request_id : request_t;
  _requests_in_flight : gmap request_t ucp_request;
  _free_requests : gset request_t
}.

Definition UCX_ENABLED : bool := true.
Definition nullptr : Z := 0.
Definition default_tag_mask : Z := -1.

Definition set_next_request_id (n : request_t) (c : std_comms) : std_comms :=
  {| _nccl_comm := _nccl_comm c; _stream := _stream c;
     _sendbuff := _sendbuff c; _recvbuff := _recvbuff c;
     _size := _size c; _rank := _rank c;
     p2p_enabled := p2p_enabled c; _ucp_worker := _ucp_worker c;
     _ucp_eps := _ucp_eps c;
     _next_request_id := n;
     _requests_in_flight := _requests_in_flight c;
     _free_requests := _free_requests c |}.

Definition set_requests_in_flight (m : gmap request_t ucp_request)
    (c : std_comms) : std_comms :=
  {| _nccl_comm := _nccl_comm c; _stream := _stream c;
     _sendbuff := _sendbuff c; _recvbuff := _recvbuff c;
     _size := _size c; _rank := _rank c;
     p2p_enabled := p2p_enabled c; _ucp_worker := _ucp_worker c;
     _ucp_eps := _ucp_eps c;
     _next_request_id := _next_request_id c;
     _requests_in_flight := m;
     _free_requests := _free_requests c |}.

Definition set_free_requests (f : gset request_t) (c : std_comms) : std_comms :=
  {| _nccl_comm := _nccl_comm c; _stream := _stream c;
     _sendbuff := _sendbuff c; _recvbuff := _recvbuff c;
     _size := _size c; _rank := _rank c;
     p2p_enabled := p2p_enabled c; _ucp_worker := _ucp_worker c;
     _ucp_eps := _ucp_eps c;
     _next_request_id := _next_request_id c;
     _requests_in_flight := _requests_in_flight c;
     _free_requests := f |}.

(** [std::unordered_map::insert]: an existing key keeps its value. *)
Definition map_insert_new (k : request_t) (v : ucp_request)
    (m : gmap request_t ucp_request) : gmap request_t ucp_request :=
  match m !! k with
  | Some _ => m
  | None => <[k := v]> m
  end.

(** [std::unordered_set::begin] on a non-empty set yields one of its
    elements; which one is left to the implementation. *)
Class IterationOrder := {
  set_begin : gset request_t → request_t;
  set_begin_elem : ∀ s, s ≠ ∅ → set_begin s ∈ s
}.

(** ** The external runtimes *)

(** One constructor per call the class makes into NCCL, CUDA, UCX
    (through [comms_ucp_handler]) and libc, with the arguments of the
    call site. *)
Inductive call :=
| time_NULL
| ucp_isend (ep_ptr buf size tag tag_mask rank : Z)
| ucp_irecv (worker ep_ptr buf size tag tag_mask source : Z)
| ucp_progress (worker : Z)
| free_ucp_request (r : ucp_request)
| cudaMemsetAsync (devPtr value count stream : Z)
| cudaStreamQuery (stream : Z)
| ncclAllReduce (sendbuff recvbuff count : Z) (datatype : ncclDataType_t)
    (op : ncclRedOp_t) (comm stream : Z)
| ncclBroadcast (sendbuff recvbuff count : Z) (datatype : ncclDataType_t)
    (root comm stream : Z)
| ncclCommGetAsyncError (comm : Z)
| ncclCommAbort (comm : Z)
| pthread_yield.

(** What each call hands back.  [ucp_isend] and [ucp_irecv] fill the
    request record; [ncclCommGetAsyncError] returns its status and the
    asynchronous error it stores through its pointer argument. *)
Definition response (c : call) : Type :=
  match c with
  | time_NULL => Z
  | ucp_isend _ _ _ _ _ _ => ucp_request
  | ucp_irecv _ _ _ _ _ _ _ => ucp_request
  | ucp_progress _ => Z
  | free_ucp_request _ => unit
  | cudaMemsetAsync _ _ _ _ => cudaError_t
  | cudaStreamQuery _ => cudaError_t
  | ncclAllReduce _ _ _ _ _ _ _ => ncclResult_t
  | ncclBroadcast _ _ _ _ _ _ _ => ncclResult_t
  | ncclCommGetAsyncError _ => (ncclResult_t * ncclResult_t)%type
  | ncclCommAbort _ => ncclResult_t
  | pthread_yield => unit
  end.

(** An environment answers every call from its own state [W].
    [completed] reads the [completed] field of the UCX context at an
    address; the two [UCS_PTR_*] tests are the macros of UCX. *)
Class Environment (W : Type) := {
  respond : ∀ c : call, W → response c * W;
  completed : W → Z → Z;
  UCS_PTR_IS_PTR : Z → bool;
  UCS_PTR_IS_ERR : Z → bool
}.

(** ** Failures *)

(** One constructor per [ASSERT] of the class; [NCCL_CHECK] and
    [CUDA_CHECK] carry the status they saw. *)
Inductive failure :=
| not_built_with_UCX
| not_initialized_for_p2p
| UCX_not_initialized
| waitall_invalid_request (r : request_t)
| waitall_timed_out
| UCX_request_not_pointer
| UCX_request_error
| completed_not_valid (v : Z)
| commSplit_not_supported
| syncStream_failed
| NCCL_call_failed (status : ncclResult_t)
| CUDA_call_failed (status : cudaError_t).

(** A configuration error is one of the three checks that open every
    point-to-point method. *)
Definition configuration_error (e : failure) : bool :=
  match e with
  | not_built_with_UCX | not_initialized_for_p2p | UCX_not_initialized => true
  | _ => false
  end.

(** The failures the polling loop of [waitall] can end in. *)
Definition polling_failure (e : failure) : bool :=
  match e with
  | waitall_timed_out | UCX_request_not_pointer | UCX_request_error
  | completed_not_valid _ => true
  | _ => false
  end.

(** ** The monad of the methods *)

(** A method runs on a machine: the environment's state, the calls made
    so far (oldest first) and the object.  It returns, throws (a failed
    [ASSERT]), or runs out of the fuel given to its loops. *)
Record machine (W : Type) := Machine {
  world : W;
  trace : list call;
  self : std_comms
}.
Arguments Machine {W} _ _ _.
Arguments world {W} _.
Arguments trace {W} _.
Arguments self {W} _.

Inductive outcome (A : Type) :=
| Return (a : A)
| Throw (e : failure)
| Diverge.
Arguments Return {A} _.
Arguments Throw {A} _.
Arguments Diverge {A}.

Definition M (W A : Type) : Type := machine W → outcome A * machine W.

Definition ret {W A} (a : A) : M W A := λ m, (Return a, m).

Definition bind {W A B} (c : M W A) (k : A → M W B) : M W B :=
  λ m, match c m with
       | (Return a, m') => k a m'
       | (Throw e, m') => (Throw e, m')
       | (Diverge, m') => (Diverge, m')
       end.

Definition throw {W A} (e : failure) : M W A := λ m, (Throw e, m).
Definition diverge {W A} : M W A := λ m, (Diverge, m).

Definition this {W} : M W std_comms := λ m, (Return (self m), m).

Definition update {W} (f : std_comms → std_comms) : M W unit :=
  λ m, (Return tt, Machine (world m) (trace m) (f (self m))).

Definition invoke {W} {env : Environment W} (c : call) : M W (response c) :=
  λ m, let (r, w) := respond c (world m) in
       (Return r, Machine w (trace m ++ [c]) (self m)).

Definition peek {W A} (f : W → A) : M W A := λ m, (Return (f (world m)), m).

(** Modelled from the spec: [ASSERT] is defined in raft/cudart_utils.h,
    not in this file.  The spec surfaces every failed check as a hard
    failure of the call in progress: the method ends where the check
    fails, and what it did to the object before stays done. *)
Definition ASSERT {W} (check : bool) (e : failure) : M W unit :=
  if check then ret tt else throw e.

Declare Scope comm_scope.
Delimit Scope comm_scope with comm.
Notation "x <- c ;; k" := (bind c (λ x, k))
  (at level 100, c at next level, k at level 200, right associativity)
  : comm_scope.
Notation "' p <- c ;; k" := (bind c (λ x, match x with p => k end))
  (at level 20, p pattern, c at level 99, k at level 200) : comm_scope.
Notation "c ;; k" := (bind c (λ _, k))
  (at level 100, k at level 200, right associativity) : comm_scope.
Local Open Scope comm_scope.

(** ** The methods of std_comms *)

Section methods.
Context {W : Type} {env : Environment W} {order : IterationOrder}.

Definition getSize : M W Z := c <- this ;; ret (_size c).
Definition getRank : M W Z := c <- this ;; ret (_rank c).

Definition NCCL_CHECK (status : ncclResult_t) : M W unit :=
  ASSERT (bool_decide (ncclSuccess = status)) (NCCL_call_failed status).

(** Modelled from the spec: [CUDA_CHECK] is defined in
    raft/cudart_utils.h, not in this file.  The spec makes every
    failing call into the runtime fatal to the call in progress, as
    [NCCL_CHECK] above does, and the destructor uses the variant named
    CUDA_CHECK_NO_THROW where it must not throw. *)
Definition CUDA_CHECK (status : cudaError_t) : M W unit :=
  ASSERT (bool_decide (cudaSuccess = status)) (CUDA_call_failed status).

(** *** Request registry *)

Definition get_request_id : M W request_t :=
  c <- this ;;
  if bool_decide (_free_requests c = ∅) then
    update (set_next_request_id (_next_request_id c + 1)) ;;
    ret (_next_request_id c)
  else
    let it := set_begin (_free_requests c) in
    update (set_free_requests (_free_requests c ∖ {[it]})) ;;
    ret it.

(** The three checks that open [isend], [irecv] and [waitall]. *)
Definition p2p_checks : M W unit :=
  ASSERT UCX_ENABLED not_built_with_UCX ;;
  c <- this ;;
  ASSERT (p2p_enabled c) not_initialized_for_p2p ;;
  ASSERT (negb (_ucp_worker c =? nullptr)) UCX_not_initialized.

(** *** Point-to-point engine *)

Definition isend (buf size dest tag : Z) : M W request_t :=
  p2p_checks ;;
  request <- get_request_id ;;
  c <- this ;;
  let ep_ptr := _ucp_eps c dest in
  ucp_req <- invoke (ucp_isend ep_ptr buf size tag default_tag_mask (_rank c)) ;;
  update (λ c, set_requests_in_flight
                 (map_insert_new request ucp_req (_requests_in_flight c)) c) ;;
  ret request.

Definition irecv (buf size source tag : Z) : M W request_t :=
  p2p_checks ;;
  request <- get_request_id ;;
  c <- this ;;
  let ep_ptr := _ucp_eps c source in
  let tag_mask := default_tag_mask in
  ucp_req <- invoke (ucp_irecv (_ucp_worker c) ep_ptr buf size tag tag_mask source) ;;
  update (λ c, set_requests_in_flight
                 (map_insert_new request ucp_req (_requests_in_flight c)) c) ;;
  ret request.

(** The first loop of [waitall]: each identifier is looked up, its
    record pushed on [requests], the identifier inserted in the free
    set and its entry erased from the table. *)
Fixpoint waitall_lookup (array_of_requests : list request_t)
    (requests : list ucp_request) : M W (list ucp_request) :=
  match array_of_requests with
  | [] => ret requests
  | r :: rest =>
      c <- this ;;
      match _requests_in_flight c !! r with
      | None => throw (waitall_invalid_request r)
      | Some p =>
          update (λ c, set_free_requests ({[r]} ∪ _free_requests c) c) ;;
          update (λ c, set_requests_in_flight
                         (delete r (_requests_in_flight c)) c) ;;
          waitall_lookup rest (requests ++ [p])
      end
  end.

(** [while (ucp_progress(worker) != 0) restart = true;] *)
Fixpoint progress_loop (fuel : nat) (restart : bool) : M W bool :=
  match fuel with
  | O => diverge
  | S fuel' =>
      c <- this ;;
      n <- invoke (ucp_progress (_ucp_worker c)) ;;
      if n =? 0 then ret restart else progress_loop fuel' true
  end.

(** The body of the [for] loop for the request under the iterator;
    returns [restart] and whether the request was erased. *)
Definition poll_request (fuel : nat) (r : ucp_request) : M W (bool * bool) :=
  restart <- progress_loop fuel false ;;
  flag <- peek (λ w, completed w (req r)) ;;
  (if needs_release r then
     ASSERT (UCS_PTR_IS_PTR (req r)) UCX_request_not_pointer ;;
     ASSERT (negb (UCS_PTR_IS_ERR (req r))) UCX_request_error ;;
     ASSERT ((flag =? 1) || (flag =? 0)) (completed_not_valid flag)
   else ret tt) ;;
  if negb (needs_release r) || (flag =? 1) then
    invoke (free_ucp_request r) ;;
    ret (true, true)
  else
    ret (restart, false).

(** One pass of the iterator over the vector: [pending] is what lies
    from the iterator to the end, [kept] what it has stepped over. *)
Fixpoint poll_requests (fuel : nat) (start : Z)
    (pending kept : list ucp_request) : M W (Z * list ucp_request) :=
  match pending with
  | [] => ret (start, kept)
  | r :: rest =>
      '(restart, erased) <- poll_request fuel r ;;
      start' <- (if restart : bool then invoke time_NULL else ret start) ;;
      poll_requests fuel start' rest (if erased : bool then kept else kept ++ [r])
  end.

(** [while (requests.size() > 0)].  The two clock readings are [time_t]
    seconds; their difference is taken in the integers. *)
Fixpoint waitall_poll (fuel : nat) (start : Z)
    (requests : list ucp_request) : M W unit :=
  match requests with
  | [] => ret tt
  | _ :: _ =>
      match fuel with
      | O => diverge
      | S fuel' =>
          now <- invoke time_NULL ;;
          ASSERT (now - start <? 10) waitall_timed_out ;;
          '(start', requests') <- poll_requests fuel start requests [] ;;
          waitall_poll fuel' start' requests'
      end
  end.

(** [count] is the length of [array_of_requests]. *)
Definition waitall (fuel : nat) (array_of_requests : list request_t) : M W unit :=
  p2p_checks ;;
  start <- invoke time_NULL ;;
  requests <- waitall_lookup array_of_requests [] ;;
  waitall_poll fuel start requests.

(** *** Collective facade *)

(** No communicator is ever built: the [ASSERT] always fails, and the
    method has no [return] behind it. *)
Definition commSplit (color key : Z) : M W std_comms :=
  ASSERT false commSplit_not_supported ;;
  diverge.

Definition allreduce (sendbuff recvbuff count : Z)
    (datatype : comms.datatype_t) (op : comms.op_t) (stream : Z) : M W unit :=
  c <- this ;;
  status <- invoke (ncclAllReduce sendbuff recvbuff count
                      (getNCCLDatatype datatype) (getNCCLOp op)
                      (_nccl_comm c) stream) ;;
  NCCL_CHECK status.

Definition bcast (buff count : Z) (datatype : comms.datatype_t)
    (root stream : Z) : M W unit :=
  c <- this ;;
  status <- invoke (ncclBroadcast buff buff count (getNCCLDatatype datatype)
                      root (_nccl_comm c) stream) ;;
  NCCL_CHECK status.

(** The broadcast [allgatherv] issues for [root].  The two arrays are
    bare pointers, read by index; [displs[root]] is converted to
    [size_t] for the product. *)
Definition allgatherv_call (c : std_comms) (sendbuf recvbuf : Z)
    (recvcounts displs : Z → Z) (datatype : comms.datatype_t)
    (stream root : Z) : call :=
  ncclBroadcast sendbuf
    (ptr_add recvbuf
       (size_t_mul (to_size_t (displs root)) (getDatatypeSize datatype)))
    (recvcounts root) (getNCCLDatatype datatype) root (_nccl_comm c) stream.

(** [n] iterations of the loop, the first one at [root]. *)
Fixpoint allgatherv_from (n : nat) (root : Z) (sendbuf recvbuf : Z)
    (recvcounts displs : Z → Z) (datatype : comms.datatype_t)
    (stream : Z) : M W unit :=
  match n with
  | O => ret tt
  | S n' =>
      c <- this ;;
      status <- invoke (allgatherv_call c sendbuf recvbuf recvcounts displs
                          datatype stream root) ;;
      NCCL_CHECK status ;;
      allgatherv_from n' (root + 1) sendbuf recvbuf recvcounts displs
        datatype stream
  end.

Definition allgatherv (sendbuf recvbuf : Z) (recvcounts displs : Z → Z)
    (datatype : comms.datatype_t) (stream : Z) : M W unit :=
  c <- this ;;
  allgatherv_from (Z.to_nat (_size c)) 0 sendbuf recvbuf recvcounts displs
    datatype stream.

(** *** Stream monitor *)

(** The body of [while (1)]: [Some] status when it returns, [None] when
    it reaches the end and the loop goes round. *)
Definition syncStream_trip (stream : Z) : M W (option status_t) :=
  cudaErr <- invoke (cudaStreamQuery stream) ;;
  if bool_decide (cudaErr = cudaSuccess) then ret (Some commStatusSuccess)
  else if bool_decide (cudaErr ≠ cudaErrorNotReady) then
    ret (Some commStatusError)
  else
    c <- this ;;
    ' (ncclErr, ncclAsyncErr) <- invoke (ncclCommGetAsyncError (_nccl_comm c)) ;;
    if bool_decide (ncclErr ≠ ncclSuccess) then ret (Some commStatusError)
    else if bool_decide (ncclAsyncErr ≠ ncclSuccess) then
      ncclErr <- invoke (ncclCommAbort (_nccl_comm c)) ;;
      if bool_decide (ncclErr ≠ ncclSuccess) then ret (Some commStatusAbort)
      else invoke pthread_yield ;; ret None
    else invoke pthread_yield ;; ret None.

(** One trip of the loop per unit of fuel. *)
Fixpoint syncStream (fuel : nat) (stream : Z) : M W status_t :=
  match fuel with
  | O => diverge
  | S fuel' =>
      r <- syncStream_trip stream ;;
      match r with
      | Some status => ret status
      | None => syncStream fuel' stream
      end
  end.

Definition sizeof_int : Z := 4.

Definition barrier (fuel : nat) : M W unit :=
  c <- this ;;
  e <- invoke (cudaMemsetAsync (_sendbuff c) 1 sizeof_int (_stream c)) ;;
  CUDA_CHECK e ;;
  e <- invoke (cudaMemsetAsync (_recvbuff c) 1 sizeof_int (_stream c)) ;;
  CUDA_CHECK e ;;
  allreduce (_sendbuff c) (_recvbuff c) 1 comms.INT comms.SUM (_stream c) ;;
  status <- syncStream fuel (_stream c) ;;
  ASSERT (bool_decide (status = commStatusSuccess)) syncStream_failed.

End methods.

(** ** What the claims speak of *)

(** The point-to-point transport was supplied at construction. *)
Definition p2p_ready (c : std_comms) : Prop :=
  p2p_enabled c = true ∧ _ucp_worker c ≠ nullptr.

(** What one allocation does to the registry: [id] leaves the free set
    when there is one to take, and comes off the counter otherwise. *)
Definition allocated (c : std_comms) (id : request_t) (c' : std_comms) : Prop :=
  (_free_requests c ≠ ∅ ∧ id ∈ _free_requests c ∧
   _free_requests c' = _free_requests c ∖ {[id]} ∧
   _next_request_id c' = _next_request_id c)
  ∨
  (_free_requests c = ∅ ∧ id = _next_request_id c ∧
   _next_request_id c' = _next_request_id c + 1 ∧
   _free_requests c' = ∅).

(** The free set and the keys of the in-flight table share nothing. *)
Definition registry_disjoint (c : std_comms) : Prop :=
  _free_requests c ## dom (_requests_in_flight c).

(** The object after the loop has gone over [ids]: each one inserted in
    the free set and erased from the table, in turn. *)
Definition release (r : request_t) (c : std_comms) : std_comms :=
  set_requests_in_flight (delete r (_requests_in_flight c))
    (set_free_requests ({[r]} ∪ _free_requests c) c).

Definition release_all (ids : list request_t) (c : std_comms) : std_comms :=
  foldl (λ c r, release r c) c ids.

(** The requests handed to [free_ucp_request] along a trace: those whose
    operation the loop has seen complete. *)
Definition cleaned (t : list call) : list ucp_request :=
  flat_map (λ c, match c with free_ucp_request r => [r] | _ => [] end) t.

(** The point-to-point calls a caller can make, with their arguments. *)
Inductive operation :=
| do_isend (buf size dest tag : Z)
| do_irecv (buf size source tag : Z)
| do_waitall (fuel : nat) (ids : list request_t).

Definition is_stream_query (c : call) : bool :=
  match c with
  | cudaStreamQuery _ => true
  | _ => false
  end.

(** How many times a trace polls a stream. *)
Definition polls (t : list call) : nat := length (List.filter is_stream_query t).

Section observations.
Context {W : Type} {env : Environment W} {order : IterationOrder}.

(** [c] leaves the object alone. *)
Definition keeps_self {A} (c : M W A) : Prop :=
  ∀ m, self (c m).2 = self m.

(** The machine an operation leaves behind, whether it returned or
    threw: a failed [ASSERT] unwinds the call and keeps the object as
    it was at that point. *)
Definition perform (o : operation) (m : machine W) : machine W :=
  match o with
  | do_isend buf size dest tag => (isend buf size dest tag m).2
  | do_irecv buf size source tag => (irecv buf size source tag m).2
  | do_waitall fuel ids => (waitall fuel ids m).2
  end.

Definition perform_all (ops : list operation) (m : machine W) : machine W :=
  foldl (λ m o, perform o m) m ops.

(** What the runtimes answer in one trip that starts at [m]: to the
    stream query, then to the query for the asynchronous error, then
    to the abort. *)
Definition query_answer (stream : Z) (m : machine W) : cudaError_t * W :=
  respond (cudaStreamQuery stream) (world m).

Definition async_answer (stream : Z) (m : machine W)
    : ncclResult_t * ncclResult_t * W :=
  respond (ncclCommGetAsyncError (_nccl_comm (self m))) (query_answer stream m).2.

Definition abort_answer (stream : Z) (m : machine W) : ncclResult_t * W :=
  respond (ncclCommAbort (_nccl_comm (self m))) (async_answer stream m).2.

(** The stream is pending, NCCL reports an asynchronous fault, and the
    abort fails. *)
Definition abort_fails (stream : Z) (m : machine W) : Prop :=
  (query_answer stream m).1 = cudaErrorNotReady ∧
  (async_answer stream m).1.1 = ncclSuccess ∧
  (async_answer stream m).1.2 ≠ ncclSuccess ∧
  (abort_answer stream m).1 ≠ ncclSuccess.

(** [n] trips in a row reach the end of the loop body. *)
Fixpoint stream_pending (n : nat) (stream : Z) (m : machine W)
    : option (machine W) :=
  match n with
  | O => Some m
  | S n' =>
      match syncStream_trip stream m with
      | (Return None, m') => stream_pending n' stream m'
      | _ => None
      end
  end.

End observations.

(** ** A scripted environment *)

(** The mock the examples run on.  The clock advances one second per
    reading; the runtimes answer from scripts, and with success once a
    script is used up.  Every UCX context carries the same [completed]
    flag, and every request record is built alike. *)
Module Mock.

Record t := Make {
  clock : Z;
  progress : list Z;
  completed_flag : Z;
  request_needs_release : bool;
  next_context : Z;
  cuda : list cudaError_t;
  stream_query : list cudaError_t;
  nccl : list ncclResult_t;
  async_error : list (ncclResult_t * ncclResult_t);
  abort : list ncclResult_t
}.

Definition pop {A} (d : A) (l : list A) : A * list A :=
  match l with
  | [] => (d, [])
  | x :: l' => (x, l')
  end.

Definition new_request (w : t) (peer : Z) (is_send : bool) : ucp_request * t :=
  ({| req := next_context w; needs_release := request_needs_release w;
      other_rank := peer; is_send_request := is_send |},
   Make (clock w) (progress w) (completed_flag w) (request_needs_release w)
     (next_context w + 8) (cuda w) (stream_query w) (nccl w)
     (async_error w) (abort w)).

Definition answer (c : call) : t → response c * t :=
  match c as c0 return t → response c0 * t with
  | time_NULL => λ w,
      (clock w,
       Make (clock w + 1) (progress w) (completed_flag w)
         (request_needs_release w) (next_context w) (cuda w)
         (stream_query w) (nccl w) (async_error w) (abort w))
  | ucp_isend ep_ptr _ _ _ _ _ => λ w, new_request w ep_ptr true
  | ucp_irecv _ _ _ _ _ _ source => λ w, new_request w source false
  | ucp_progress _ => λ w,
      let (n, l) := pop 0 (progress w) in
      (n, Make (clock w) l (completed_flag w) (request_needs_release w)
            (next_context w) (cuda w) (stream_query w) (nccl w)
            (async_error w) (abort w))
  | free_ucp_request _ => λ w, (tt, w)
  | cudaMemsetAsync _ _ _ _ => λ w,
      let (e, l) := pop cudaSuccess (cuda w) in
      (e, Make (clock w) (progress w) (completed_flag w)
            (request_needs_release w) (next_context w) l
            (stream_query w) (nccl w) (async_error w) (abort w))
  | cudaStreamQuery _ => λ w,
      let (e, l) := pop cudaSuccess (stream_query w) in
      (e, Make (clock w) (progress w) (completed_flag w)
            (request_needs_release w) (next_context w) (cuda w)
            l (nccl w) (async_error w) (abort w))
  | ncclAllReduce _ _ _ _ _ _ _ | ncclBroadcast _ _ _ _ _ _ _ => λ w,
      let (e, l) := pop ncclSuccess (nccl w) in
      (e, Make (clock w) (progress w) (completed_flag w)
            (request_needs_release w) (next_context w) (cuda w)
            (stream_query w) l (async_error w) (abort w))
  | ncclCommGetAsyncError _ => λ w,
      let (e, l) := pop (ncclSuccess, ncclSuccess) (async_error w) in
      (e, Make (clock w) (progress w) (completed_flag w)
            (request_needs_release w) (next_context w) (cuda w)
            (stream_query w) (nccl w) l (abort w))
  | ncclCommAbort _ => λ w,
      let (e, l) := pop ncclSuccess (abort w) in
      (e, Make (clock w) (progress w) (completed_flag w)
            (request_needs_release w) (next_context w) (cuda w)
            (stream_query w) (nccl w) (async_error w) l)
  | pthread_yield => λ w, (tt, w)
  end.

#[global] Instance environment : Environment t := {
  respond := answer;
  completed w _ := completed_flag w;
  UCS_PTR_IS_PTR p := (0 <? p) && (p <? size_t_modulus - 100);
  UCS_PTR_IS_ERR p := size_t_modulus - 100 <=? p
}.

(** A transport on which nothing ever moves or completes. *)
Definition stalled : t :=
  Make 1000 [] 0 true 4096 [] [] [] [] [].

(** A transport that completes every request at once. *)
Definition prompt : t :=
  Make 1000 [] 1 true 4096 [] [] [] [] [].

(** Iterate a hash set in the order [elements] lists it. *)
Definition first_element (s : gset request_t) : request_t :=
  default 0 (head (elements s)).

#[global] Instance order : IterationOrder.
Proof.
  refine {| set_begin := first_element |}.
  intros s Hs. unfold first_element.
  destruct (elements s) as [|x l] eqn:E.
  - apply elements_empty_inv in E. exfalso. apply Hs.
    by apply leibniz_equiv.
  - simpl. apply elem_of_elements. rewrite E. left.
Defined.

(** A point-to-point communicator of [size] ranks, freshly built. *)
Definition p2p_comms (size rank : Z) : std_comms :=
  {| _nccl_comm := 1; _stream := 2; _sendbuff := 256; _recvbuff := 512;
     _size := size; _rank := rank;
     p2p_enabled := true; _ucp_worker := 3;
     _ucp_eps := λ i, 64 + i;
     _next_request_id := 0;
     _requests_in_flight := ∅;
     _free_requests := ∅ |}.

(** A collective-only communicator: no worker, no endpoints. *)
Definition coll_comms (size rank : Z) : std_comms :=
  {| _nccl_comm := 1; _stream := 2; _sendbuff := 256; _recvbuff := 512;
     _size := size; _rank := rank;
     p2p_enabled := false; _ucp_worker := nullptr;
     _ucp_eps := λ _, 0;
     _next_request_id := 0;
     _requests_in_flight := ∅;
     _free_requests := ∅ |}.

Definition boot (w : t) (c : std_comms) : machine t := Machine w [] c.

End Mock.

(** ** Scenarios *)

Module Scenario.
Import Mock.

(** Rank 0 of two, one send to rank 1 in flight on a transport that
    never completes it. *)
Definition fresh : machine Mock.t := boot stalled (p2p_comms 2 0).
Definition one_pending : machine Mock.t := (isend 0 4 1 7 fresh).2.
Definition two_pending : machine Mock.t := (irecv 16 4 1 7 one_pending).2.

(** The same send on a transport that completes everything. *)
Definition one_complete : machine Mock.t :=
  (isend 0 4 1 7 (boot prompt (p2p_comms 2 0))).2.

(** A collective-only communicator. *)
Definition collective_only : machine Mock.t := boot prompt (coll_comms 2 0).

(** NCCL fails its first call. *)
Definition nccl_down : machine Mock.t :=
  boot (Make 1000 [] 1 true 4096 [] [] [ncclError 2] [] []) (p2p_comms 2 0).

(** The stream is pending twice, then done. *)
Definition pending_twice : machine Mock.t :=
  boot (Make 1000 [] 1 true 4096 []
          [cudaErrorNotReady; cudaErrorNotReady] [] [] [])
       (p2p_comms 2 0).


(** NCCL accepts its first call and fails the second. *)
Definition nccl_fails_second : machine Mock.t :=
  boot (Make 1000 [] 1 true 4096 [] [] [ncclSuccess; ncclError 2] [] [])
    (p2p_comms 2 0).

Definition counts : Z → Z := λ i, nth (Z.to_nat i) [2; 3] 0.
Definition offsets : Z → Z := λ i, nth (Z.to_nat i) [0; 2] 0.

End Scenario.

(** ** Construction and injection *)

(** The element types [getDataType] is specialised for. *)
Inductive ctype :=
| c_char | c_uint8_t | c_int | c_uint32_t
| c_int64_t | c_uint64_t | c_float | c_double.

(** sizeof on the LP64 data model. *)
Definition sizeof (T : ctype) : Z :=
  match T with
  | c_char => 1
  | c_uint8_t => 1
  | c_int => 4
  | c_uint32_t => 4
  | c_int64_t => 8
  | c_uint64_t => 8
  | c_float => 4
  | c_double => 8
  end.

Definition getDataType (T : ctype) : comms.datatype_t :=
  match T with
  | c_char => comms.CHAR
  | c_uint8_t => comms.UINT8
  | c_int => comms.INT
  | c_uint32_t => comms.UINT
  | c_int64_t => comms.INT64
  | c_uint64_t => comms.UINT64
  | c_float => comms.FLOAT
  | c_double => comms.DOUBLE
  end.

(** The largest [int]. *)
Definition INT_MAX : Z := 2 ^ 31 - 1.

(** The constructor for collective and point-to-point operation: the
    member initialisers, then [initialize()], then [p2p_enabled = true].
    The stream and the two scratch buffers [initialize()] obtains from
    CUDA are taken as given; the two containers start empty. *)
Definition std_comms_p2p (comm ucp_worker : Z) (eps : Z → Z) (size rank : Z)
    (stream sendbuff recvbuff : Z) : std_comms :=
  {| _nccl_comm := comm; _stream := stream;
     _sendbuff := sendbuff; _recvbuff := recvbuff;
     _size := size; _rank := rank;
     p2p_enabled := true; _ucp_worker := ucp_worker;
     _ucp_eps := eps;
     _next_request_id := 0;
     _requests_in_flight := ∅;
     _free_requests := ∅ |}.

(** The constructor for collective-only operation.  It initialises
    neither [_ucp_worker], nor [_ucp_eps], nor [_next_request_id]:
    they hold whatever the last three arguments say was there. *)
Definition std_comms_coll (comm size rank : Z)
    (stream sendbuff recvbuff : Z)
    (stale_worker : Z) (stale_eps : Z → Z) (stale_next : request_t)
    : std_comms :=
  {| _nccl_comm := comm; _stream := stream;
     _sendbuff := sendbuff; _recvbuff := recvbuff;
     _size := size; _rank := rank;
     p2p_enabled := false; _ucp_worker := stale_worker;
     _ucp_eps := stale_eps;
     _next_request_id := stale_next;
     _requests_in_flight := ∅;
     _free_requests := ∅ |}.

(** [a[i] = v] on an array held by index. *)
Definition array_write (a : Z → Z) (i v : Z) : Z → Z :=
  λ j, if j =? i then v else a j.

(** The loop of [inject_comms_py], [n] iterations from index [i]: the
    raw array [size_t_ep_arr] is read by index and [ucp_ep_v], the
    array just allocated, is written at the same index. *)
Fixpoint copy_endpoints (n : nat) (i : Z) (size_t_ep_arr ucp_ep_v : Z → Z)
    : Z → Z :=
  match n with
  | O => ucp_ep_v
  | S n' =>
      let ptr := size_t_ep_arr i in
      copy_endpoints n' (i + 1) size_t_ep_arr
        (if negb (ptr =? 0) then array_write ucp_ep_v i (size_t_ep_arr i)
         else array_write ucp_ep_v i nullptr)
  end.

(** The communicator [inject_comms_py] installs in the handle, for a
    [size] that is not negative: with a negative [size] the array
    [new ucp_ep_h[size]] cannot be allocated and nothing is installed.
    [fresh_eps] is the content of the endpoint array as [new] left it. *)
Definition inject_comms_py (comm ucp_worker : Z) (eps : Z → Z) (size rank : Z)
    (fresh_eps : Z → Z) (stream sendbuff recvbuff : Z) : std_comms :=
  std_comms_p2p comm ucp_worker
    (copy_endpoints (Z.to_nat size) 0 eps fresh_eps) size rank
    stream sendbuff recvbuff.

(** The communicator [inject_comms_py_coll] installs in the handle. *)
Definition inject_comms_py_coll (comm size rank : Z)
    (stream sendbuff recvbuff : Z)
    (stale_worker : Z) (stale_eps : Z → Z) (stale_next : request_t)
    : std_comms :=
  std_comms_coll comm size rank stream sendbuff recvbuff
    stale_worker stale_eps stale_next.

(** ** Further observations *)

(** Calls into UCX and the clock, and calls into NCCL, CUDA and the
    scheduler. *)
Definition is_p2p_call (c : call) : bool :=
  match c with
  | time_NULL | ucp_isend _ _ _ _ _ _ | ucp_irecv _ _ _ _ _ _ _
  | ucp_progress _ | free_ucp_request _ => true
  | _ => false
  end.

Definition is_collective_call (c : call) : bool :=
  match c with
  | cudaMemsetAsync _ _ _ _ | cudaStreamQuery _
  | ncclAllReduce _ _ _ _ _ _ _ | ncclBroadcast _ _ _ _ _ _ _
  | ncclCommGetAsyncError _ | ncclCommAbort _ | pthread_yield => true
  | _ => false
  end.

(** Every identifier below the counter is in flight or free, none above
    it is, and none is both. *)
Definition registry_exact (c : std_comms) : Prop :=
  registry_disjoint c ∧
  0 ≤ _next_request_id c ∧
  ∀ id, id ∈ dom (_requests_in_flight c) ∨ id ∈ _free_requests c ↔
        0 ≤ id < _next_request_id c.

(** The registry as both constructors leave it, with the counter at 0
    as the point-to-point constructor sets it. *)
Definition registry_fresh (c : std_comms) : Prop :=
  _next_request_id c = 0 ∧ _requests_in_flight c = ∅ ∧ _free_requests c = ∅.

Definition is_send_or_recv (o : operation) : bool :=
  match o with
  | do_isend _ _ _ _ | do_irecv _ _ _ _ => true
  | do_waitall _ _ => false
  end.

Section further_observations.
Context {W : Type} {env : Environment W}.

(** [c] only adds calls of the kind [P] to the trace. *)
Definition calls_only {A} (P : call → bool) (c : M W A) : Prop :=
  ∀ m, ∃ t, trace (c m).2 = trace m ++ t ∧ Forall (λ c, P c = true) t.

(** The transport reports no progress, whatever its state. *)
Definition no_progress : Prop :=
  ∀ w worker, (respond (ucp_progress worker) w).1 = 0.

(** Two readings of the clock in a row are less than ten seconds apart. *)
Definition steady_clock : Prop :=
  ∀ w, (respond time_NULL (respond time_NULL w).2).1
         - (respond time_NULL w).1 < 10.

End further_observations.

(** An environment in which nothing is ever pending: the clock stands
    still, UCX completes every message inside [isend]/[irecv] (no
    release needed) and reports no progress, NCCL and CUDA succeed. *)
Module Idle.

Definition answer (c : call) : Z → response c * Z :=
  match c as c0 return Z → response c0 * Z with
  | time_NULL => λ w, (w, w)
  | ucp_isend ep_ptr _ _ _ _ _ => λ w,
      ({| req := 0; needs_release := false; other_rank := ep_ptr;
          is_send_request := true |}, w)
  | ucp_irecv _ _ _ _ _ _ source => λ w,
      ({| req := 0; needs_release := false; other_rank := source;
          is_send_request := false |}, w)
  | ucp_progress _ => λ w, (0, w)
  | free_ucp_request _ => λ w, (tt, w)
  | cudaMemsetAsync _ _ _ _ => λ w, (cudaSuccess, w)
  | cudaStreamQuery _ => λ w, (cudaSuccess, w)
  | ncclAllReduce _ _ _ _ _ _ _ | ncclBroadcast _ _ _ _ _ _ _ => λ w,
      (ncclSuccess, w)
  | ncclCommGetAsyncError _ => λ w, ((ncclSuccess, ncclSuccess), w)
  | ncclCommAbort _ => λ w, (ncclSuccess, w)
  | pthread_yield => λ w, (tt, w)
  end.

#[global] Instance environment : Environment Z := {|
  respond := answer;
  completed := λ _ _, 0;
  UCS_PTR_IS_PTR := λ p, (0 <? p) && (p <? size_t_modulus - 100);
  UCS_PTR_IS_ERR := λ p, size_t_modulus - 100 <=? p
|}.

End Idle.

Section stream_failure.
Context {W : Type} {env : Environment W}.

(** The stream query fails, or the stream is pending and the
    asynchronous error cannot be retrieved. *)
Definition stream_fails (stream : Z) (m : machine W) : Prop :=
  ((query_answer stream m).1 ≠ cudaSuccess ∧
   (query_answer stream m).1 ≠ cudaErrorNotReady)
  ∨ ((query_answer stream m).1 = cudaErrorNotReady ∧
     (async_answer stream m).1.1 ≠ ncclSuccess).

End stream_failure.

(** ** The runtimes over a whole call *)

Section replaying.
Context {W : Type} {env : Environment W}.

(** The state of the runtimes once they have answered the calls [t],
    in turn, from the state [w]. *)
Definition replay (t : list call) (w : W) : W :=
  foldl (λ w c, (respond c w).2) w t.

(** A request is complete in a state of the runtimes when it needs no
    release (UCX completed it inside [isend]/[irecv]) or the UCX
    context at its address has [completed] at 1. *)
Definition complete_in (w : W) (p : ucp_request) : Prop :=
  needs_release p = false ∨ completed w (req p) = 1.

(** Of the calls [t], made from the state [w]: every request handed to
    [free_ucp_request] is complete in the state the calls before it
    have left. *)
Definition frees_only_complete (w : W) (t : list call) : Prop :=
  ∀ t1 p t2, t = t1 ++ free_ucp_request p :: t2 → complete_in (replay t1 w) p.

(** [c] moves the runtimes only through the calls it records, and
    frees only requests that are complete when it frees them. *)
Definition frees_complete {A} (c : M W A) : Prop :=
  ∀ m, ∃ t,
    trace (c m).2 = trace m ++ t ∧
    world (c m).2 = replay t (world m) ∧
    frees_only_complete (world m) t.

(** What NCCL answers to the broadcast of [allgatherv] for [root] when
    the broadcasts for the roots 0 .. root-1 are all it has been asked
    since the state [w]. *)
Definition broadcast_answer (c : std_comms) (sendbuf recvbuf : Z)
    (recvcounts displs : Z → Z) (datatype : comms.datatype_t) (stream : Z)
    (w : W) (root : Z) : ncclResult_t :=
  (respond
     (allgatherv_call c sendbuf recvbuf recvcounts displs datatype stream root)
     (replay
        (map (allgatherv_call c sendbuf recvbuf recvcounts displs datatype stream)
           (seqZ 0 root)) w)).1.

(** The runtimes keep a stream pending, from the state [w], when CUDA
    answers the stream query with not-ready, NCCL hands over the
    asynchronous error of [comm], and that error is none, or it is one
    and NCCL aborts [comm] successfully.  The calls answered on the way,
    the yield included; [None] when the answers are any other. *)
Definition pending_calls (stream comm : Z) (w : W) : option (list call) :=
  let q : cudaError_t * W := respond (cudaStreamQuery stream) w in
  let a : ncclResult_t * ncclResult_t * W :=
    respond (ncclCommGetAsyncError comm) q.2 in
  let b : ncclResult_t * W := respond (ncclCommAbort comm) a.2 in
  if bool_decide (q.1 = cudaErrorNotReady) then
    if bool_decide (a.1.1 = ncclSuccess) then
      if bool_decide (a.1.2 = ncclSuccess) then
        Some [cudaStreamQuery stream; ncclCommGetAsyncError comm; pthread_yield]
      else if bool_decide (b.1 = ncclSuccess) then
        Some [cudaStreamQuery stream; ncclCommGetAsyncError comm;
              ncclCommAbort comm; pthread_yield]
      else None
    else None
  else None.

(** The runtimes keep the stream pending [n] times in a row: the
    machine they are in afterwards, with the calls they answered. *)
Fixpoint still_pending (n : nat) (stream : Z) (m : machine W)
    : option (machine W) :=
  match n with
  | O => Some m
  | S n' =>
      match pending_calls stream (_nccl_comm (self m)) (world m) with
      | Some t =>
          still_pending n' stream
            (Machine (replay t (world m)) (trace m ++ t) (self m))
      | None => None
      end
  end.

End replaying.

(** More scenarios: a history of sends, receives and waits, a stream
    that breaks after one pending poll, and, on the idle environment,
    rank 0 of two with one send and one receive in flight, both
    completed by UCX at once. *)
Module FurtherScenario.

Definition history : list operation :=
  [do_isend 0 4 1 7; do_irecv 16 4 1 7; do_waitall 20 [0]; do_waitall 20 [7]].

Definition stream_breaks : machine Mock.t :=
  Mock.boot
    (Mock.Make 1000 [] 1 true 4096 [] [cudaErrorNotReady; cudaErrorOther 4]
       [] [] [])
    (Mock.p2p_comms 2 0).

Definition idle_fresh : machine Z := Machine 1000 [] (Mock.p2p_comms 2 0).

Definition two_complete : machine Z :=
  (irecv 16 4 1 7 (isend 0 4 1 7 idle_fresh).2).2.

End FurtherScenario.

(** ** Reasoning about methods *)

Section logic.
Context {W : Type}.

Lemma keeps_self_ret {A} (a : A) : keeps_self (ret (W:=W) a).
Proof. done. Qed.

Lemma keeps_self_throw {A} (e : failure) : keeps_self (throw (W:=W) (A:=A) e).
Proof. done. Qed.

Lemma keeps_self_diverge {A} : keeps_self (diverge (W:=W) (A:=A)).
Proof. done. Qed.

Lemma keeps_self_this : keeps_self (this (W:=W)).
Proof. done. Qed.

Lemma keeps_self_peek {A} (f : W → A) : keeps_self (peek f).
Proof. done. Qed.

Lemma keeps_self_ASSERT (check : bool) (e : failure) :
  keeps_self (ASSERT (W:=W) check e).
Proof. by destruct check. Qed.

Lemma keeps_self_invoke {env : Environment W} (c : call) : keeps_self (invoke c).
Proof. intros m. unfold invoke. by destruct (respond c (world m)). Qed.

Lemma keeps_self_bind {A B} (c : M W A) (k : A → M W B) :
  keeps_self c → (∀ a, keeps_self (k a)) → keeps_self (bind c k).
Proof.
  intros Hc Hk m. unfold bind. specialize (Hc m).
  destruct (c m) as [[a|e|] m']; simpl in *; auto.
  by rewrite Hk.
Qed.

End logic.

Create HintDb keeps.

#[global] Hint Resolve keeps_self_ret keeps_self_throw keeps_self_diverge
  keeps_self_this keeps_self_peek keeps_self_ASSERT keeps_self_invoke
  : keeps.

Ltac keeps :=
  repeat first
    [ apply keeps_self_bind; [| intros ?]
    | match goal with
      | |- keeps_self (invoke ?c) => exact (keeps_self_invoke c)
      end
    | progress auto with keeps
    | match goal with
      | |- keeps_self (if ?b then _ else _) => destruct b
      | |- keeps_self (match ?x with _ => _ end) => destruct x
      end ].

(** ** The polling phase never touches the registry *)

Section polling.
Context {W : Type} {env : Environment W}.

Lemma progress_loop_keeps fuel restart : keeps_self (progress_loop fuel restart).
Proof.
  revert restart. induction fuel as [|fuel IH]; intros restart; simpl.
  - keeps.
  - apply keeps_self_bind; [keeps|]. intros c.
    apply keeps_self_bind; [keeps|]. intros n.
    destruct (n =? 0); [keeps | apply IH].
Qed.

Lemma poll_request_keeps fuel r : keeps_self (poll_request fuel r).
Proof.
  unfold poll_request. pose proof (progress_loop_keeps fuel false). keeps.
Qed.

Lemma poll_requests_keeps fuel start pending kept :
  keeps_self (poll_requests fuel start pending kept).
Proof.
  revert start kept. induction pending as [|r rest IH]; intros start kept; simpl.
  - keeps.
  - apply keeps_self_bind; [apply poll_request_keeps|].
    intros [restart erased]. apply keeps_self_bind; [keeps|]. intros ?. apply IH.
Qed.

Lemma waitall_poll_keeps fuel start requests :
  keeps_self (waitall_poll fuel start requests).
Proof.
  revert start requests. induction fuel as [|fuel IH]; intros start requests;
    destruct requests as [|r rest]; simpl; try (keeps; fail).
  apply keeps_self_bind; [keeps|]. intros now.
  apply keeps_self_bind; [keeps|]. intros _.
  apply (keeps_self_bind (poll_requests (S fuel) start (r :: rest) []));
    [apply poll_requests_keeps|].
  intros [start' requests']. apply IH.
Qed.

End polling.

(** ** The request registry *)

Ltac unfold_monad :=
  unfold bind, ret, throw, diverge, this, update, peek, ASSERT, invoke in *.

Section registry.
Context {W : Type} {env : Environment W} {order : IterationOrder}.

Lemma p2p_checks_ready (m : machine W) :
  p2p_ready (self m) → p2p_checks m = (Return tt, m).
Proof.
  intros [Hp Hw]. unfold p2p_checks. unfold_monad. simpl. rewrite Hp.
  apply Z.eqb_neq in Hw. by rewrite Hw.
Qed.

Lemma p2p_checks_not_ready (m : machine W) :
  p2p_enabled (self m) = false ∨ _ucp_worker (self m) = nullptr →
  ∃ e, p2p_checks m = (Throw e, m) ∧ configuration_error e = true.
Proof.
  intros Hm. unfold p2p_checks. unfold_monad. simpl.
  destruct (p2p_enabled (self m)) eqn:Hp.
  - destruct Hm as [Hm|Hm]; [done|]. rewrite Hm. simpl. by eexists.
  - by eexists.
Qed.

Lemma get_request_id_run (m : machine W) :
  get_request_id m =
    if bool_decide (_free_requests (self m) = ∅) then
      (Return (_next_request_id (self m)),
       Machine (world m) (trace m)
         (set_next_request_id (_next_request_id (self m) + 1) (self m)))
    else
      (Return (set_begin (_free_requests (self m))),
       Machine (world m) (trace m)
         (set_free_requests
            (_free_requests (self m) ∖ {[set_begin (_free_requests (self m))]})
            (self m))).
Proof.
  unfold get_request_id. unfold_monad. simpl. by case_bool_decide.
Qed.

Lemma get_request_id_allocated (m : machine W) :
  ∃ id c',
    get_request_id m = (Return id, Machine (world m) (trace m) c') ∧
    allocated (self m) id c' ∧
    _requests_in_flight c' = _requests_in_flight (self m) ∧
    id ∉ _free_requests c'.
Proof.
  rewrite get_request_id_run. case_bool_decide as Hf.
  - eexists _, _. split; [done|]. split; [|split; [done|]].
    + right. by rewrite Hf.
    + simpl. rewrite Hf. set_solver.
  - eexists _, _. split; [done|]. split; [|split; [done|]].
    + left. split; [done|]. split; [by apply set_begin_elem|done].
    + simpl. intros [_ Hn]%elem_of_difference. by apply Hn, elem_of_singleton.
Qed.

(** [isend] and [irecv] on a ready communicator: one allocation, one
    call into UCX, one insertion in the table. *)
Lemma isend_ready (buf size dest tag : Z) (m : machine W) :
  p2p_ready (self m) →
  ∃ id c1 r w,
    get_request_id m = (Return id, Machine (world m) (trace m) c1) ∧
    respond (ucp_isend (_ucp_eps c1 dest) buf size tag default_tag_mask
               (_rank c1)) (world m) = (r, w) ∧
    isend buf size dest tag m =
      (Return id,
       Machine w
         (trace m ++ [ucp_isend (_ucp_eps c1 dest) buf size tag
                        default_tag_mask (_rank c1)])
         (set_requests_in_flight
            (map_insert_new id r (_requests_in_flight c1)) c1)).
Proof.
  intros Hm. destruct (get_request_id_allocated m) as (id & c1 & Hid & _).
  destruct (respond (ucp_isend (_ucp_eps c1 dest) buf size tag
              default_tag_mask (_rank c1)) (world m)) as [r w] eqn:Hr.
  exists id, c1, r, w. split; [done|]. split; [done|].
  unfold isend. unfold bind at 1. rewrite (p2p_checks_ready m Hm).
  unfold bind at 1. rewrite Hid. unfold_monad. simpl. by rewrite Hr.
Qed.

Lemma irecv_ready (buf size source tag : Z) (m : machine W) :
  p2p_ready (self m) →
  ∃ id c1 r w,
    get_request_id m = (Return id, Machine (world m) (trace m) c1) ∧
    respond (ucp_irecv (_ucp_worker c1) (_ucp_eps c1 source) buf size tag
               default_tag_mask source) (world m) = (r, w) ∧
    irecv buf size source tag m =
      (Return id,
       Machine w
         (trace m ++ [ucp_irecv (_ucp_worker c1) (_ucp_eps c1 source) buf
                        size tag default_tag_mask source])
         (set_requests_in_flight
            (map_insert_new id r (_requests_in_flight c1)) c1)).
Proof.
  intros Hm. destruct (get_request_id_allocated m) as (id & c1 & Hid & _).
  destruct (respond (ucp_irecv (_ucp_worker c1) (_ucp_eps c1 source) buf size
              tag default_tag_mask source) (world m)) as [r w] eqn:Hr.
  exists id, c1, r, w. split; [done|]. split; [done|].
  unfold irecv. unfold bind at 1. rewrite (p2p_checks_ready m Hm).
  unfold bind at 1. rewrite Hid. unfold_monad. simpl. by rewrite Hr.
Qed.

Lemma isend_allocated (buf size dest tag : Z) (m : machine W) :
  p2p_ready (self m) →
  ∃ id m',
    isend buf size dest tag m = (Return id, m') ∧
    allocated (self m) id (self m').
Proof.
  intros Hm.
  destruct (get_request_id_allocated m) as (id & c1 & Hid & Ha & _).
  destruct (isend_ready buf size dest tag m Hm) as (id' & c1' & r & w & Hid' & _ & ->).
  rewrite Hid in Hid'. injection Hid' as <- <-.
  eexists _, _. split; [done|].
  destruct Ha as [Ha|Ha]; [left|right]; exact Ha.
Qed.

Lemma irecv_allocated (buf size source tag : Z) (m : machine W) :
  p2p_ready (self m) →
  ∃ id m',
    irecv buf size source tag m = (Return id, m') ∧
    allocated (self m) id (self m').
Proof.
  intros Hm.
  destruct (get_request_id_allocated m) as (id & c1 & Hid & Ha & _).
  destruct (irecv_ready buf size source tag m Hm) as (id' & c1' & r & w & Hid' & _ & ->).
  rewrite Hid in Hid'. injection Hid' as <- <-.
  eexists _, _. split; [done|].
  destruct Ha as [Ha|Ha]; [left|right]; exact Ha.
Qed.

End registry.

(** ** The first loop of waitall *)

Lemma release_all_free (ids : list request_t) (c : std_comms) :
  _free_requests (release_all ids c) = list_to_set ids ∪ _free_requests c.
Proof.
  revert c. induction ids as [|r ids IH]; intros c; simpl.
  - set_solver.
  - rewrite IH. simpl. set_solver.
Qed.

Lemma release_all_in_flight (ids : list request_t) (c : std_comms) (x : request_t) :
  _requests_in_flight (release_all ids c) !! x =
    if bool_decide (x ∈ ids) then None else _requests_in_flight c !! x.
Proof.
  revert c. induction ids as [|r ids IH]; intros c.
  - by rewrite bool_decide_eq_false_2 by apply not_elem_of_nil.
  - change (release_all (r :: ids) c) with (release_all ids (release r c)).
    rewrite IH. cbn [release _requests_in_flight set_requests_in_flight].
    destruct (decide (x = r)) as [->|Hne].
    + rewrite lookup_delete_eq. rewrite (bool_decide_eq_true_2 (r ∈ r :: ids)).
      * by case_bool_decide.
      * left.
    + rewrite lookup_delete_ne by done.
      case_bool_decide as H1; case_bool_decide as H2; try done.
      * exfalso. apply H2. by right.
      * exfalso. apply elem_of_cons in H2 as [?|?]; done.
Qed.

Lemma release_all_next (ids : list request_t) (c : std_comms) :
  _next_request_id (release_all ids c) = _next_request_id c.
Proof. revert c. induction ids as [|r ids IH]; intros c; simpl; [done|]. by rewrite IH. Qed.

Lemma release_all_ready (ids : list request_t) (c : std_comms) :
  p2p_ready (release_all ids c) ↔ p2p_ready c.
Proof.
  revert c. induction ids as [|r ids IH]; intros c; simpl; [done|].
  by rewrite IH.
Qed.

Lemma release_all_not_in_flight (ids : list request_t) (c : std_comms) (x : request_t) :
  x ∈ ids → x ∉ dom (_requests_in_flight (release_all ids c)).
Proof.
  intros Hx. rewrite elem_of_dom, release_all_in_flight.
  rewrite bool_decide_eq_true_2 by done. by intros [? ?].
Qed.

Lemma release_all_in_free (ids : list request_t) (c : std_comms) (x : request_t) :
  x ∈ ids → x ∈ _free_requests (release_all ids c).
Proof. intros Hx. rewrite release_all_free. set_solver. Qed.

Section lookup.
Context {W : Type} {env : Environment W}.

Lemma waitall_lookup_found (r : request_t) (rest : list request_t)
    (requests : list ucp_request) (p : ucp_request) (m : machine W) :
  _requests_in_flight (self m) !! r = Some p →
  waitall_lookup (r :: rest) requests m =
    waitall_lookup rest (requests ++ [p])
      (Machine (world m) (trace m) (release r (self m))).
Proof. intros Hr. simpl. unfold_monad. simpl. by rewrite Hr. Qed.

Lemma waitall_lookup_missing (r : request_t) (rest : list request_t)
    (requests : list ucp_request) (m : machine W) :
  _requests_in_flight (self m) !! r = None →
  waitall_lookup (r :: rest) requests m = (Throw (waitall_invalid_request r), m).
Proof. intros Hr. simpl. unfold_monad. simpl. by rewrite Hr. Qed.

(** The loop only ever throws the invalid-request failure, and never
    runs out of fuel.  When it returns, it has found every identifier
    in the table. *)
Lemma waitall_lookup_outcome (ids : list request_t)
    (requests : list ucp_request) (m : machine W) :
  (∃ found,
     waitall_lookup ids requests m =
       (Return (requests ++ found),
        Machine (world m) (trace m) (release_all ids (self m))) ∧
     Forall2 (λ x p, _requests_in_flight (self m) !! x = Some p) ids found)
  ∨
  (∃ pre x post,
     ids = pre ++ x :: post ∧
     _requests_in_flight (release_all pre (self m)) !! x = None ∧
     waitall_lookup ids requests m =
       (Throw (waitall_invalid_request x),
        Machine (world m) (trace m) (release_all pre (self m)))).
Proof.
  revert requests m. induction ids as [|r rest IH]; intros requests m.
  - left. exists []. simpl. rewrite app_nil_r. by destruct m.
  - destruct (_requests_in_flight (self m) !! r) as [p|] eqn:Hr.
    + rewrite (waitall_lookup_found _ _ _ _ _ Hr).
      destruct (IH (requests ++ [p])
                  (Machine (world m) (trace m) (release r (self m))))
        as [(found & -> & Hall) | (pre & x & post & -> & Hx & ->)].
      * left. exists (p :: found). rewrite <- app_assoc. simpl.
        split; [done|]. constructor; [done|].
        eapply Forall2_impl; [exact Hall|]. simpl.
        intros x q Hq. by apply lookup_delete_Some in Hq as [_ Hq].
      * right. by exists (r :: pre), x, post.
    + rewrite (waitall_lookup_missing _ _ _ _ Hr).
      right. exists [], r, rest. by destruct m.
Qed.

(** The loop fails at the first position whose identifier it does not
    find: one absent from the table, or one already met. *)
Lemma waitall_lookup_invalid (pre : list request_t) (x : request_t)
    (post : list request_t) (requests : list ucp_request) (m : machine W) :
  NoDup pre →
  (∀ y, y ∈ pre → y ∈ dom (_requests_in_flight (self m))) →
  x ∉ dom (_requests_in_flight (self m)) ∨ x ∈ pre →
  waitall_lookup (pre ++ x :: post) requests m =
    (Throw (waitall_invalid_request x),
     Machine (world m) (trace m) (release_all pre (self m))).
Proof.
  revert requests m. induction pre as [|r pre IH]; intros requests m Hnd Hin Hx.
  - simpl app. rewrite waitall_lookup_missing; [by destruct m|].
    destruct Hx as [Hx|Hx]; [|by apply elem_of_nil in Hx].
    by apply not_elem_of_dom.
  - apply NoDup_cons in Hnd as [Hr Hnd].
    destruct (_requests_in_flight (self m) !! r) as [p|] eqn:Hp.
    2:{ exfalso. apply not_elem_of_dom in Hp. apply Hp, Hin. left. }
    simpl app. rewrite (waitall_lookup_found _ _ _ _ _ Hp).
    rewrite IH; [done|done| |].
    + intros y Hy. simpl. rewrite dom_delete_L.
      apply elem_of_difference. split; [apply Hin; by right|].
      intros ->%elem_of_singleton. done.
    + simpl. rewrite dom_delete_L.
      destruct Hx as [Hx|Hx].
      * left. intros [? _]%elem_of_difference. done.
      * apply elem_of_cons in Hx as [->|Hx]; [|by right].
        left. intros [_ Hn]%elem_of_difference. by apply Hn, elem_of_singleton.
Qed.

End lookup.

(** ** The polling loop *)

Lemma cleaned_app (t1 t2 : list call) : cleaned (t1 ++ t2) = cleaned t1 ++ cleaned t2.
Proof. unfold cleaned. apply flat_map_app. Qed.

Section cleanup.
Context {W : Type} {env : Environment W}.

Lemma bind_Return {A B} (c : M W A) (k : A → M W B) m b m' :
  bind c k m = (Return b, m') →
  ∃ a m1, c m = (Return a, m1) ∧ k a m1 = (Return b, m').
Proof.
  unfold bind. destruct (c m) as [[a|e|] m1]; intros Hk; try done.
  by exists a, m1.
Qed.

Lemma invoke_run (c : call) (m : machine W) :
  invoke c m =
    (Return (respond c (world m)).1,
     Machine (respond c (world m)).2 (trace m ++ [c]) (self m)).
Proof. unfold invoke. by destruct (respond c (world m)). Qed.

Lemma bind_invoke {B} (c : call) (k : response c → M W B) (m : machine W) :
  bind (invoke c) k m =
    k (respond c (world m)).1
      (Machine (respond c (world m)).2 (trace m ++ [c]) (self m)).
Proof. unfold bind. by rewrite invoke_run. Qed.

Lemma bind_this {B} (k : std_comms → M W B) (m : machine W) :
  bind this k m = k (self m) m.
Proof. done. Qed.

Lemma bind_ASSERT {B} (check : bool) (e : failure) (k : unit → M W B)
    (m : machine W) :
  bind (ASSERT check e) k m = if check then k tt m else (Throw e, m).
Proof. by destruct check. Qed.

Lemma bind_bind {A B C} (c : M W A) (k1 : A → M W B) (k2 : B → M W C)
    (m : machine W) :
  bind (bind c k1) k2 m = bind c (λ a, bind (k1 a) k2) m.
Proof. unfold bind. by destruct (c m) as [[a|e|] m']. Qed.

Lemma ASSERT_Return (check : bool) (e : failure) (m m' : machine W) :
  ASSERT check e m = (Return tt, m') → check = true ∧ m' = m.
Proof. destruct check; simpl; unfold ret, throw; by intros [=]. Qed.

Lemma progress_loop_cleaned fuel restart (m : machine W) :
  cleaned (trace (progress_loop fuel restart m).2) = cleaned (trace m).
Proof.
  revert restart m. induction fuel as [|fuel IH]; intros restart m; [done|].
  simpl. unfold bind at 1. unfold this. unfold bind at 1.
  rewrite invoke_run. destruct (_ =? 0).
  - simpl. rewrite cleaned_app. simpl. by rewrite app_nil_r.
  - rewrite IH. simpl. rewrite cleaned_app. simpl. by rewrite app_nil_r.
Qed.

Lemma poll_request_cleaned fuel r (m m' : machine W) restart erased :
  poll_request fuel r m = (Return (restart, erased), m') →
  cleaned (trace m') = cleaned (trace m) ++ (if erased then [r] else []).
Proof.
  unfold poll_request. intros Hrun.
  apply bind_Return in Hrun as (b & m1 & Hloop & Hrun).
  pose proof (progress_loop_cleaned fuel false m) as Hc.
  rewrite Hloop in Hc. simpl in Hc.
  apply bind_Return in Hrun as (flag & m2 & Hpeek & Hrun).
  unfold peek in Hpeek. injection Hpeek as <- <-.
  apply bind_Return in Hrun as ([] & m3 & Hchk & Hrun).
  assert (m3 = m1) as ->.
  { destruct (needs_release r).
    - apply bind_Return in Hchk as ([] & m4 & [_ ->]%ASSERT_Return & Hchk).
      apply bind_Return in Hchk as ([] & m5 & [_ ->]%ASSERT_Return & Hchk).
      by apply ASSERT_Return in Hchk as [_ ->].
    - unfold ret in Hchk. by injection Hchk. }
  destruct (negb (needs_release r) || (completed (world m1) (req r) =? 1)).
  - unfold bind in Hrun. rewrite invoke_run in Hrun. unfold ret in Hrun.
    injection Hrun as <- <- <-. simpl. rewrite cleaned_app, Hc. done.
  - unfold ret in Hrun. injection Hrun as <- <- <-.
    by rewrite app_nil_r.
Qed.

(** A request is erased only when it needed no release, or when its
    [completed] flag was set after the progress loop. *)
Lemma poll_request_erased_complete fuel r (m m' : machine W) restart :
  poll_request fuel r m = (Return (restart, true), m') →
  needs_release r = false ∨
  completed (world (progress_loop fuel false m).2) (req r) = 1.
Proof.
  unfold poll_request. intros Hrun.
  apply bind_Return in Hrun as (b & m1 & Hloop & Hrun).
  rewrite Hloop. simpl.
  apply bind_Return in Hrun as (flag & m2 & Hpeek & Hrun).
  unfold peek in Hpeek. injection Hpeek as <- <-.
  apply bind_Return in Hrun as ([] & m3 & _ & Hrun).
  destruct (needs_release r); [|by left]. right. simpl in Hrun.
  destruct (completed (world m1) (req r) =? 1) eqn:Hc.
  - by apply Z.eqb_eq in Hc.
  - unfold ret in Hrun. by injection Hrun.
Qed.

Lemma poll_requests_cleaned fuel start pending kept (m m' : machine W)
    start' kept' :
  poll_requests fuel start pending kept m = (Return (start', kept'), m') →
  ∃ erased,
    cleaned (trace m') = cleaned (trace m) ++ erased ∧
    kept' ++ erased ≡ₚ kept ++ pending.
Proof.
  revert start kept m. induction pending as [|r rest IH]; intros start kept m.
  - simpl. unfold ret. intros [= <- <- <-]. exists [].
    by rewrite !app_nil_r.
  - cbn [poll_requests]. intros Hrun.
    apply bind_Return in Hrun as ([restart erased] & m1 & Hr & Hrun).
    apply poll_request_cleaned in Hr.
    apply bind_Return in Hrun as (s1 & m2 & Hs & Hrun).
    assert (cleaned (trace m2) = cleaned (trace m1)) as Hm2.
    { destruct restart.
      - rewrite invoke_run in Hs. injection Hs as <- <-. simpl.
        rewrite cleaned_app. simpl. by rewrite app_nil_r.
      - unfold ret in Hs. by injection Hs as <- <-. }
    apply IH in Hrun as (rest_erased & Hc & Hp).
    rewrite Hc, Hm2, Hr. destruct erased.
    + exists (r :: rest_erased). rewrite <- app_assoc. split; [done|].
      rewrite <- !Permutation_middle. by apply perm_skip.
    + exists rest_erased. rewrite app_nil_r. split; [done|].
      rewrite Hp. by rewrite <- app_assoc.
Qed.

(** A wait that returns has cleaned up every request it was given. *)
Lemma waitall_poll_cleaned fuel start requests (m m' : machine W) :
  waitall_poll fuel start requests m = (Return tt, m') →
  ∃ erased,
    cleaned (trace m') = cleaned (trace m) ++ erased ∧ erased ≡ₚ requests.
Proof.
  revert start requests m. induction fuel as [|fuel IH]; intros start requests m;
    destruct requests as [|r rest].
  - simpl. unfold ret. intros [= <-]. exists []. by rewrite app_nil_r.
  - done.
  - simpl. unfold ret. intros [= <-]. exists []. by rewrite app_nil_r.
  - cbn [waitall_poll]. intros Hrun.
    apply bind_Return in Hrun as (now & m1 & Hnow & Hrun).
    rewrite invoke_run in Hnow. injection Hnow as <- <-.
    apply bind_Return in Hrun as ([] & m2 & [_ ->]%ASSERT_Return & Hrun).
    apply bind_Return in Hrun as ([start' requests'] & m3 & Hpass & Hrun).
    apply poll_requests_cleaned in Hpass as (erased1 & Hc1 & Hp1).
    apply IH in Hrun as (erased2 & Hc2 & Hp2).
    exists (erased1 ++ erased2). split.
    + rewrite Hc2, Hc1. simpl. rewrite cleaned_app. simpl.
      by rewrite app_nil_r, app_assoc.
    + rewrite Hp2. rewrite (Permutation_app_comm erased1). by rewrite Hp1.
Qed.

Lemma bind_Throw {A B} (c : M W A) (k : A → M W B) m e m' :
  bind c k m = (Throw e, m') →
  c m = (Throw e, m') ∨ ∃ a m1, c m = (Return a, m1) ∧ k a m1 = (Throw e, m').
Proof.
  unfold bind. destruct (c m) as [[a|e'|] m1]; intros Hk; try done.
  - right. by exists a, m1.
  - left. by injection Hk as -> ->.
Qed.

Lemma ASSERT_Throw (check : bool) (e e' : failure) (m m' : machine W) :
  ASSERT check e m = (Throw e', m') → e' = e.
Proof. destruct check; simpl; unfold ret, throw; by intros [=]. Qed.

Lemma progress_loop_no_throw fuel restart (m m' : machine W) e :
  progress_loop fuel restart m ≠ (Throw e, m').
Proof.
  revert restart m. induction fuel as [|fuel IH]; intros restart m; [done|].
  cbn [progress_loop]. rewrite bind_this. cbv beta. rewrite bind_invoke.
  destruct (_ =? 0); [done | apply IH].
Qed.

Lemma poll_request_throws fuel r (m m' : machine W) e :
  poll_request fuel r m = (Throw e, m') → polling_failure e = true.
Proof.
  unfold poll_request. intros Hrun.
  apply bind_Throw in Hrun as [Hrun | (b & m1 & _ & Hrun)];
    [by apply progress_loop_no_throw in Hrun|].
  apply bind_Throw in Hrun as [Hrun | (flag & m2 & _ & Hrun)]; [done|].
  apply bind_Throw in Hrun as [Hrun | ([] & m3 & _ & Hrun)].
  - destruct (needs_release r); [|done].
    apply bind_Throw in Hrun as [->%ASSERT_Throw | ([] & m4 & _ & Hrun)]; [done|].
    apply bind_Throw in Hrun as [->%ASSERT_Throw | ([] & m5 & _ & Hrun)]; [done|].
    by apply ASSERT_Throw in Hrun as ->.
  - destruct (negb (needs_release r) || (flag =? 1)); [|done].
    by apply bind_Throw in Hrun as [Hrun | (? & ? & _ & Hrun)];
      [rewrite invoke_run in Hrun|].
Qed.

Lemma poll_requests_throws fuel start pending kept (m m' : machine W) e :
  poll_requests fuel start pending kept m = (Throw e, m') →
  polling_failure e = true.
Proof.
  revert start kept m. induction pending as [|r rest IH]; intros start kept m;
    [done|].
  cbn [poll_requests]. intros Hrun.
  apply bind_Throw in Hrun as [Hrun | ([restart erased] & m1 & _ & Hrun)];
    [by apply poll_request_throws in Hrun|].
  apply bind_Throw in Hrun as [Hrun | (s1 & m2 & _ & Hrun)].
  - destruct restart; [by rewrite invoke_run in Hrun | done].
  - by apply IH in Hrun.
Qed.

(** The polling loop throws nothing but its own failures: never the
    invalid-request one. *)
Lemma waitall_poll_throws fuel start requests (m m' : machine W) e :
  waitall_poll fuel start requests m = (Throw e, m') →
  polling_failure e = true.
Proof.
  revert start requests m. induction fuel as [|fuel IH]; intros start requests m;
    destruct requests as [|r rest]; try done.
  cbn [waitall_poll]. intros Hrun.
  apply bind_Throw in Hrun as [Hrun | (now & m1 & _ & Hrun)];
    [by rewrite invoke_run in Hrun|].
  apply bind_Throw in Hrun as [->%ASSERT_Throw | ([] & m2 & _ & Hrun)]; [done|].
  apply bind_Throw in Hrun as [Hrun | ([start' requests'] & m3 & _ & Hrun)].
  - by apply poll_requests_throws in Hrun.
  - by apply IH in Hrun.
Qed.

End cleanup.

(** ** waitall as a whole *)

Section waitall.
Context {W : Type} {env : Environment W} {order : IterationOrder}.

(** On a ready communicator: the clock is read, the first loop runs,
    and the polling loop takes over what it found. *)
Lemma waitall_ready (fuel : nat) (ids : list request_t) (m : machine W) :
  p2p_ready (self m) →
  waitall fuel ids m =
    bind (waitall_lookup ids [])
      (waitall_poll fuel (respond time_NULL (world m)).1)
      (Machine (respond time_NULL (world m)).2 (trace m ++ [time_NULL]) (self m)).
Proof.
  intros Hm. unfold waitall. unfold bind at 1. rewrite (p2p_checks_ready m Hm).
  unfold bind at 1. by rewrite invoke_run.
Qed.

Lemma waitall_not_ready (fuel : nat) (ids : list request_t) (m : machine W) :
  p2p_enabled (self m) = false ∨ _ucp_worker (self m) = nullptr →
  ∃ e, waitall fuel ids m = (Throw e, m) ∧ configuration_error e = true.
Proof.
  intros Hm. destruct (p2p_checks_not_ready m Hm) as (e & He & Hc).
  exists e. split; [|done]. unfold waitall. unfold bind at 1. by rewrite He.
Qed.

Lemma p2p_ready_dec (c : std_comms) :
  p2p_ready c ∨ (p2p_enabled c = false ∨ _ucp_worker c = nullptr).
Proof.
  unfold p2p_ready. destruct (p2p_enabled c); [|by right; left].
  destruct (decide (_ucp_worker c = nullptr)); [by right; right | by left].
Qed.

(** Unless the first loop throws, the object a wait leaves behind is
    the one the first loop made: every identifier released. *)
Lemma waitall_released (fuel : nat) (ids : list request_t) (m m' : machine W) o :
  p2p_ready (self m) →
  waitall fuel ids m = (o, m') →
  (∀ x, o ≠ Throw (waitall_invalid_request x)) →
  self m' = release_all ids (self m) ∧
  ∃ found m1,
    Forall2 (λ x p, _requests_in_flight (self m) !! x = Some p) ids found ∧
    trace m1 = trace m ++ [time_NULL] ∧
    waitall_poll fuel (respond time_NULL (world m)).1 found m1 = (o, m').
Proof.
  intros Hm Hrun Ho. rewrite (waitall_ready _ _ _ Hm) in Hrun.
  unfold bind in Hrun.
  destruct (waitall_lookup_outcome ids []
              (Machine (respond time_NULL (world m)).2
                 (trace m ++ [time_NULL]) (self m)))
    as [(found & Hl & Hall) | (pre & x & post & _ & _ & Hl)];
    rewrite Hl in Hrun; simpl in Hrun.
  - split.
    + pose proof (waitall_poll_keeps fuel (respond time_NULL (world m)).1 found
                    (Machine (respond time_NULL (world m)).2
                       (trace m ++ [time_NULL]) (release_all ids (self m)))) as Hk.
      unfold keeps_self in Hk. simpl in Hk. by rewrite Hrun in Hk.
    + eexists found, _. split; [exact Hall|]. split; [|exact Hrun]. done.
  - injection Hrun as <- <-. by destruct (Ho x).
Qed.

End waitall.

(** ** Sequences of point-to-point operations *)

Section operations.
Context {W : Type} {env : Environment W} {order : IterationOrder}.

Lemma isend_not_ready (buf size dest tag : Z) (m : machine W) :
  p2p_enabled (self m) = false ∨ _ucp_worker (self m) = nullptr →
  ∃ e, isend buf size dest tag m = (Throw e, m) ∧ configuration_error e = true.
Proof.
  intros Hm. destruct (p2p_checks_not_ready m Hm) as (e & He & Hc).
  exists e. split; [|done]. unfold isend. unfold bind at 1. by rewrite He.
Qed.

Lemma irecv_not_ready (buf size source tag : Z) (m : machine W) :
  p2p_enabled (self m) = false ∨ _ucp_worker (self m) = nullptr →
  ∃ e, irecv buf size source tag m = (Throw e, m) ∧ configuration_error e = true.
Proof.
  intros Hm. destruct (p2p_checks_not_ready m Hm) as (e & He & Hc).
  exists e. split; [|done]. unfold irecv. unfold bind at 1. by rewrite He.
Qed.

Lemma allocated_free_subseteq (c c' : std_comms) (id : request_t) :
  allocated c id c' → _free_requests c' ⊆ _free_requests c.
Proof.
  intros [(_ & _ & -> & _) | (-> & _ & _ & ->)]; [|done].
  apply subseteq_difference_l. done.
Qed.

Lemma dom_map_insert_new (k : request_t) (v : ucp_request)
    (t : gmap request_t ucp_request) :
  dom (map_insert_new k v t) = {[k]} ∪ dom t.
Proof.
  unfold map_insert_new. destruct (t !! k) eqn:Hk.
  - apply elem_of_dom_2 in Hk. set_solver.
  - by rewrite dom_insert_L.
Qed.

Lemma register_disjoint (c1 : std_comms) (id : request_t) (r : ucp_request) :
  registry_disjoint c1 → id ∉ _free_requests c1 →
  registry_disjoint
    (set_requests_in_flight (map_insert_new id r (_requests_in_flight c1)) c1).
Proof.
  unfold registry_disjoint. simpl. rewrite dom_map_insert_new. set_solver.
Qed.

Lemma release_disjoint (r : request_t) (c : std_comms) :
  registry_disjoint c → registry_disjoint (release r c).
Proof.
  unfold registry_disjoint. simpl. rewrite dom_delete_L. set_solver.
Qed.

Lemma release_all_disjoint (ids : list request_t) (c : std_comms) :
  registry_disjoint c → registry_disjoint (release_all ids c).
Proof.
  revert c. induction ids as [|r ids IH]; intros c Hc; [done|].
  simpl. by apply IH, release_disjoint.
Qed.

Lemma isend_disjoint (buf size dest tag : Z) (m : machine W) :
  registry_disjoint (self m) →
  registry_disjoint (self (isend buf size dest tag m).2).
Proof.
  intros Hd. destruct (p2p_ready_dec (self m)) as [Hm|Hm].
  - destruct (isend_ready buf size dest tag m Hm) as (id & c1 & r & w & Hid & _ & ->).
    destruct (get_request_id_allocated m) as (id' & c1' & Hid' & Ha & Hfl & Hnf).
    rewrite Hid in Hid'. injection Hid' as <- <-.
    apply register_disjoint; [|done].
    unfold registry_disjoint in *. rewrite Hfl.
    apply allocated_free_subseteq in Ha. set_solver.
  - by destruct (isend_not_ready buf size dest tag m Hm) as (e & -> & _).
Qed.

Lemma irecv_disjoint (buf size source tag : Z) (m : machine W) :
  registry_disjoint (self m) →
  registry_disjoint (self (irecv buf size source tag m).2).
Proof.
  intros Hd. destruct (p2p_ready_dec (self m)) as [Hm|Hm].
  - destruct (irecv_ready buf size source tag m Hm) as (id & c1 & r & w & Hid & _ & ->).
    destruct (get_request_id_allocated m) as (id' & c1' & Hid' & Ha & Hfl & Hnf).
    rewrite Hid in Hid'. injection Hid' as <- <-.
    apply register_disjoint; [|done].
    unfold registry_disjoint in *. rewrite Hfl.
    apply allocated_free_subseteq in Ha. set_solver.
  - by destruct (irecv_not_ready buf size source tag m Hm) as (e & -> & _).
Qed.

(** Whatever its outcome, a wait leaves the object as the first loop
    left it: released over a prefix of its argument. *)
Lemma waitall_self (fuel : nat) (ids : list request_t) (m : machine W) :
  ∃ pre post,
    ids = pre ++ post ∧ self (waitall fuel ids m).2 = release_all pre (self m).
Proof.
  destruct (p2p_ready_dec (self m)) as [Hm|Hm].
  - rewrite (waitall_ready _ _ _ Hm). unfold bind.
    destruct (waitall_lookup_outcome ids []
                (Machine (respond time_NULL (world m)).2
                   (trace m ++ [time_NULL]) (self m)))
      as [(found & -> & _) | (pre & x & post & -> & _ & ->)].
    + exists ids, []. split; [by rewrite app_nil_r|].
      by rewrite waitall_poll_keeps.
    + by exists pre, (x :: post).
  - destruct (waitall_not_ready fuel ids m Hm) as (e & -> & _).
    by exists [], ids.
Qed.

Lemma perform_disjoint (o : operation) (m : machine W) :
  registry_disjoint (self m) → registry_disjoint (self (perform o m)).
Proof.
  intros Hd. destruct o as [buf size dest tag | buf size source tag | fuel ids].
  - by apply isend_disjoint.
  - by apply irecv_disjoint.
  - simpl. destruct (waitall_self fuel ids m) as (pre & post & _ & ->).
    by apply release_all_disjoint.
Qed.

End operations.

(** ** Requests are freed only when complete *)

Section replays.
Context {W : Type} {env : Environment W} {order : IterationOrder}.

Lemma replay_app (t1 t2 : list call) (w : W) :
  replay (t1 ++ t2) w = replay t2 (replay t1 w).
Proof. apply foldl_app. Qed.

Lemma frees_only_complete_nil (w : W) : frees_only_complete w [].
Proof. intros t1 p t2 Heq. by destruct t1. Qed.

Lemma frees_only_complete_call (w : W) (c : call) :
  (∀ p, c = free_ucp_request p → complete_in w p) → frees_only_complete w [c].
Proof.
  intros Hc t1 p t2 Heq. destruct t1 as [|x t1].
  - injection Heq as ->. by apply Hc.
  - injection Heq as _ Heq. by destruct t1.
Qed.

Lemma frees_only_complete_app (w : W) (t1 t2 : list call) :
  frees_only_complete w t1 →
  frees_only_complete (replay t1 w) t2 →
  frees_only_complete w (t1 ++ t2).
Proof.
  intros H1 H2 s1 p s2 Heq.
  apply app_eq_app in Heq as (l & [[-> Heq] | [-> ->]]).
  - destruct l as [|x l].
    + simpl in Heq. rewrite app_nil_r in H2. by apply (H2 [] p s2).
    + injection Heq as <- _. by apply (H1 s1 p l).
  - rewrite replay_app. by apply (H2 l p s2).
Qed.

Lemma frees_complete_quiet {A} (c : M W A) :
  (∀ m, trace (c m).2 = trace m ∧ world (c m).2 = world m) →
  frees_complete c.
Proof.
  intros Hc m. destruct (Hc m) as [Ht Hw]. exists [].
  rewrite app_nil_r. split; [done|]. split; [done|].
  apply frees_only_complete_nil.
Qed.

Lemma frees_complete_ret {A} (a : A) : frees_complete (ret (W:=W) a).
Proof. by apply frees_complete_quiet. Qed.

Lemma frees_complete_throw {A} (e : failure) :
  frees_complete (throw (W:=W) (A:=A) e).
Proof. by apply frees_complete_quiet. Qed.

Lemma frees_complete_diverge {A} : frees_complete (diverge (W:=W) (A:=A)).
Proof. by apply frees_complete_quiet. Qed.

Lemma frees_complete_this : frees_complete (this (W:=W)).
Proof. by apply frees_complete_quiet. Qed.

Lemma frees_complete_update (f : std_comms → std_comms) :
  frees_complete (update (W:=W) f).
Proof. by apply frees_complete_quiet. Qed.

Lemma frees_complete_peek {A} (f : W → A) : frees_complete (peek f).
Proof. by apply frees_complete_quiet. Qed.

Lemma frees_complete_ASSERT (check : bool) (e : failure) :
  frees_complete (ASSERT (W:=W) check e).
Proof. apply frees_complete_quiet. by destruct check. Qed.

Lemma frees_complete_invoke (c : call) :
  is_collective_call c = true ∨ cleaned [c] = [] → frees_complete (invoke c).
Proof.
  intros Hc m. exists [c]. rewrite invoke_run. split; [done|]. split; [done|].
  apply frees_only_complete_call. intros p ->. by destruct Hc.
Qed.

Lemma frees_complete_bind {A B} (c : M W A) (k : A → M W B) :
  frees_complete c → (∀ a, frees_complete (k a)) → frees_complete (bind c k).
Proof.
  intros Hc Hk m. unfold bind. destruct (Hc m) as (t1 & Ht1 & Hw1 & Hf1).
  destruct (c m) as [[a|e|] m1]; simpl in *; try by exists t1.
  destruct (Hk a m1) as (t2 & Ht2 & Hw2 & Hf2). exists (t1 ++ t2).
  rewrite Ht2, Ht1, <- app_assoc, Hw2, Hw1, replay_app.
  split; [done|]. split; [done|].
  apply frees_only_complete_app; [done|]. by rewrite <- Hw1.
Qed.

End replays.

Ltac frees_complete :=
  repeat first
    [ apply frees_complete_bind; [| intros ?]
    | apply frees_complete_ret | apply frees_complete_throw
    | apply frees_complete_diverge
    | apply frees_complete_this | apply frees_complete_update
    | apply frees_complete_peek | apply frees_complete_ASSERT
    | match goal with
      | |- frees_complete (invoke ?c) =>
          apply (frees_complete_invoke c); right; reflexivity
      | |- frees_complete (if ?b then _ else _) => destruct b
      | |- frees_complete (match ?x with _ => _ end) => destruct x
      end ].

Section waitall_frees.
Context {W : Type} {env : Environment W} {order : IterationOrder}.

Lemma p2p_checks_frees : frees_complete (p2p_checks (W:=W)).
Proof. unfold p2p_checks. frees_complete. Qed.

Lemma waitall_lookup_frees (ids : list request_t) (requests : list ucp_request) :
  frees_complete (waitall_lookup (W:=W) ids requests).
Proof.
  revert requests. induction ids as [|r rest IH]; intros requests; simpl.
  - frees_complete.
  - apply frees_complete_bind; [frees_complete|]. intros c.
    destruct (_ !! r); [|frees_complete].
    apply frees_complete_bind; [frees_complete|]. intros _.
    apply frees_complete_bind; [frees_complete|]. intros _. apply IH.
Qed.

Lemma progress_loop_frees (fuel : nat) (restart : bool) :
  frees_complete (progress_loop (W:=W) fuel restart).
Proof.
  revert restart. induction fuel as [|fuel IH]; intros restart; simpl.
  - frees_complete.
  - apply frees_complete_bind; [frees_complete|]. intros c.
    apply frees_complete_bind; [frees_complete|]. intros n.
    destruct (n =? 0); [frees_complete | apply IH].
Qed.

(** The body of the loop frees the request under the iterator only
    when the test of line 453 holds of it in the state the progress
    loop has left. *)
Lemma poll_request_frees (fuel : nat) (r : ucp_request) :
  frees_complete (poll_request (W:=W) fuel r).
Proof.
  unfold poll_request.
  apply frees_complete_bind; [apply progress_loop_frees|]. intros restart m.
  match goal with
  | |- ∃ t, trace (?c m).2 = _ ∧ _ => remember (c m) as res eqn:Hres
  end.
  unfold bind at 1 in Hres. unfold peek at 1 in Hres. cbv beta iota in Hres.
  set (flag := completed (world m) (req r)) in Hres.
  assert (negb (needs_release r) || (flag =? 1) = true → complete_in (world m) r)
    as Hdone.
  { intros [Hn | Hf]%orb_true_iff.
    - left. by destruct (needs_release r).
    - right. by apply Z.eqb_eq. }
  match type of Hres with
  | context [bind ?c ?k m] => set (checks := c) in Hres
  end.
  assert (∀ m0 : machine W,
            trace (checks m0).2 = trace m0 ∧ world (checks m0).2 = world m0)
    as Hchecks.
  { intros m0. subst checks. destruct (needs_release r); [|split; reflexivity].
    unfold ASSERT, bind, ret, throw.
    destruct (UCS_PTR_IS_PTR (req r)), (UCS_PTR_IS_ERR (req r)),
      ((flag =? 1) || (flag =? 0)); split; reflexivity. }
  unfold bind at 1 in Hres. destruct (Hchecks m) as (Ht & Hw).
  destruct (checks m) as [[[]|e|] m1]; simpl in Ht, Hw.
  2,3: subst res; exists []; simpl; rewrite app_nil_r; split; [done|];
       split; [exact Hw|]; apply frees_only_complete_nil.
  destruct (negb (needs_release r) || (flag =? 1)) eqn:Hcond.
  - unfold bind in Hres. rewrite invoke_run in Hres. subst res.
    exists [free_ucp_request r]. simpl.
    rewrite Ht, Hw. split; [done|]. split; [reflexivity|].
    apply frees_only_complete_call. intros p [= <-]. by apply Hdone.
  - subst res. exists []. simpl. rewrite app_nil_r. split; [done|].
    split; [exact Hw|]. apply frees_only_complete_nil.
Qed.

Lemma poll_requests_frees (fuel : nat) (start : Z)
    (pending kept : list ucp_request) :
  frees_complete (poll_requests (W:=W) fuel start pending kept).
Proof.
  revert start kept. induction pending as [|r rest IH]; intros start kept; simpl.
  - frees_complete.
  - apply frees_complete_bind; [apply poll_request_frees|].
    intros [restart erased].
    apply frees_complete_bind; [destruct restart; frees_complete|].
    intros start'. apply IH.
Qed.

Lemma waitall_poll_frees (fuel : nat) (start : Z) (requests : list ucp_request) :
  frees_complete (waitall_poll (W:=W) fuel start requests).
Proof.
  revert start requests. induction fuel as [|fuel IH]; intros start requests.
  - destruct requests; simpl; frees_complete.
  - destruct requests as [|r requests]; [simpl; frees_complete|].
    cbn [waitall_poll].
    apply frees_complete_bind; [frees_complete|]. intros now.
    apply frees_complete_bind; [frees_complete|]. intros _.
    apply frees_complete_bind; [apply poll_requests_frees|].
    intros [start' requests']. apply IH.
Qed.

Lemma waitall_frees (fuel : nat) (ids : list request_t) :
  frees_complete (waitall (W:=W) fuel ids).
Proof.
  unfold waitall.
  apply frees_complete_bind; [apply p2p_checks_frees|]. intros _.
  apply frees_complete_bind; [frees_complete|]. intros start.
  apply frees_complete_bind; [apply waitall_lookup_frees|]. intros requests.
  apply waitall_poll_frees.
Qed.

End waitall_frees.

(** ** The specification, claim by claim *)

Section claims.
Context {W : Type} {env : Environment W} {order : IterationOrder}.

(** C4.  Identifier allocation: [get_request_id] always returns; when
    the free set is not empty the identifier is one of its elements,
    it is removed from the set and the counter stays; otherwise the
    identifier is the counter's value and the counter goes up by one.
    [isend] and [irecv] on a ready communicator return the identifier
    allocated this way. *)
Theorem request_id_allocation (m : machine W) :
  (∃ id c',
     get_request_id m = (Return id, Machine (world m) (trace m) c') ∧
     allocated (self m) id c' ∧
     _requests_in_flight c' = _requests_in_flight (self m))
  ∧ (p2p_ready (self m) →
     ∀ buf size dest tag, ∃ id m',
       isend buf size dest tag m = (Return id, m') ∧
       allocated (self m) id (self m'))
  ∧ (p2p_ready (self m) →
     ∀ buf size source tag, ∃ id m',
       irecv buf size source tag m = (Return id, m') ∧
       allocated (self m) id (self m')).
Proof.
  destruct (get_request_id_allocated m) as (id & c1 & Hid & Ha & Hfl & _).
  split; [by exists id, c1|]. split; intros Hm buf size peer tag.
  - by apply isend_allocated.
  - by apply irecv_allocated.
Qed.

(** C3.  From a freshly constructed communicator (empty table, empty
    free set), after any sequence of [isend], [irecv] and [waitall]
    -- returning or throwing -- the free set and the keys of the
    in-flight table are disjoint. *)
Theorem free_set_disjoint_from_in_flight (m : machine W) (ops : list operation) :
  _requests_in_flight (self m) = ∅ →
  _free_requests (self m) = ∅ →
  _free_requests (self (perform_all ops m))
    ## dom (_requests_in_flight (self (perform_all ops m))).
Proof.
  intros Ht Hf.
  assert (registry_disjoint (self m)) as Hd.
  { unfold registry_disjoint. rewrite Hf. set_solver. }
  clear Ht Hf. revert m Hd.
  induction ops as [|o ops IH]; intros m Hd; [exact Hd|].
  simpl. by apply IH, perform_disjoint.
Qed.

(** C8.  On a communicator built without the message transport
    (point-to-point not enabled, or no worker handle), [isend],
    [irecv] and [waitall] throw a configuration error and leave the
    machine as it was: no identifier allocated, no call made, the
    registry untouched. *)
Theorem p2p_call_without_transport (m : machine W) :
  p2p_enabled (self m) = false ∨ _ucp_worker (self m) = nullptr →
  (∀ buf size dest tag, ∃ e,
     isend buf size dest tag m = (Throw e, m) ∧ configuration_error e = true)
  ∧ (∀ buf size source tag, ∃ e,
       irecv buf size source tag m = (Throw e, m) ∧
       configuration_error e = true)
  ∧ (∀ fuel ids, ∃ e,
       waitall fuel ids m = (Throw e, m) ∧ configuration_error e = true).
Proof.
  intros Hm. split; [|split]; intros.
  - by apply isend_not_ready.
  - by apply irecv_not_ready.
  - by apply waitall_not_ready.
Qed.

(** C9.  [commSplit] throws the not-supported failure for every color
    and key; it returns no communicator and leaves the machine as it
    was. *)
Theorem commSplit_always_fails (color key : Z) (m : machine W) :
  (commSplit color key m).1 = Throw commSplit_not_supported ∧
  (∀ c, (commSplit color key m).1 ≠ Return c) ∧
  (commSplit color key m).2 = m.
Proof.
  unfold commSplit. rewrite bind_ASSERT.
  split; [done|]. split; [|done]. intros c Hc. discriminate Hc.
Qed.

(** C10.  A [waitall] that meets, at position k, an identifier it does
    not find in the in-flight table (absent, or already taken out at
    an earlier position) throws the invalid-request failure there.
    The identifiers at positions 0..k-1 have by then left the table
    and entered the free set, and nothing was polled: the only call
    made is the reading of the clock.  Every [waitall] that throws
    the invalid-request failure has thrown it this way. *)
Theorem waitall_invalid_request_not_atomic (fuel : nat)
    (ids : list request_t) (m : machine W) :
  (∀ pre x post,
     ids = pre ++ x :: post →
     p2p_ready (self m) →
     NoDup pre →
     (∀ y, y ∈ pre → y ∈ dom (_requests_in_flight (self m))) →
     x ∉ dom (_requests_in_flight (self m)) ∨ x ∈ pre →
     ∃ m',
       waitall fuel ids m = (Throw (waitall_invalid_request x), m') ∧
       trace m' = trace m ++ [time_NULL] ∧
       _free_requests (self m') = list_to_set pre ∪ _free_requests (self m) ∧
       (∀ y, y ∈ pre →
          y ∈ _free_requests (self m') ∧
          y ∉ dom (_requests_in_flight (self m'))) ∧
       (∀ y, y ∉ pre →
          _requests_in_flight (self m') !! y = _requests_in_flight (self m) !! y))
  ∧ (∀ x m',
       waitall fuel ids m = (Throw (waitall_invalid_request x), m') →
       ∃ pre post,
         ids = pre ++ x :: post ∧
         (x ∉ dom (_requests_in_flight (self m'))) ∧
         trace m' = trace m ++ [time_NULL] ∧
         _free_requests (self m') = list_to_set pre ∪ _free_requests (self m) ∧
         (∀ y, y ∈ pre →
            y ∈ _free_requests (self m') ∧
            y ∉ dom (_requests_in_flight (self m')))).
Proof.
  split.
  - intros pre x post -> Hm Hnd Hin Hx. rewrite (waitall_ready _ _ _ Hm).
    unfold bind. rewrite waitall_lookup_invalid by done.
    eexists. split; [done|]. simpl. split; [done|].
    split; [apply release_all_free|]. split.
    + intros y Hy. split; [by apply release_all_in_free|].
      by apply release_all_not_in_flight.
    + intros y Hy. rewrite release_all_in_flight.
      by rewrite bool_decide_eq_false_2.
  - intros x m' Hrun.
    destruct (p2p_ready_dec (self m)) as [Hm|Hm].
    2:{ destruct (waitall_not_ready fuel ids m Hm) as (e & He & Hc).
        rewrite He in Hrun. injection Hrun as -> _. done. }
    rewrite (waitall_ready _ _ _ Hm) in Hrun. unfold bind in Hrun.
    destruct (waitall_lookup_outcome ids []
                (Machine (respond time_NULL (world m)).2
                   (trace m ++ [time_NULL]) (self m)))
      as [(found & Hl & _) | (pre & x' & post & -> & Hx & Hl)];
      rewrite Hl in Hrun.
    + by apply waitall_poll_throws in Hrun.
    + injection Hrun as -> <-. exists pre, post. split; [done|]. simpl.
      split; [by apply not_elem_of_dom|]. split; [done|].
      split; [apply release_all_free|].
      intros y Hy. split; [by apply release_all_in_free|].
      by apply release_all_not_in_flight.
Qed.

(** C2, as the code has it.  When [waitall] throws the timeout, every
    identifier passed to it -- its operation complete or not -- is in
    the free set and out of the in-flight table, and the next [isend]
    or [irecv] takes its identifier from that free set. *)
Theorem waitall_timeout_releases_all (fuel : nat) (ids : list request_t)
    (m m' : machine W) :
  waitall fuel ids m = (Throw waitall_timed_out, m') →
  (∀ x, x ∈ ids →
     x ∈ _free_requests (self m') ∧
     x ∉ dom (_requests_in_flight (self m')))
  ∧ (ids ≠ [] →
     ∀ buf size peer tag,
       (∃ id m'',
          isend buf size peer tag m' = (Return id, m'') ∧
          id ∈ (list_to_set ids ∪ _free_requests (self m) : gset request_t))
       ∧ (∃ id m'',
            irecv buf size peer tag m' = (Return id, m'') ∧
            id ∈ (list_to_set ids ∪ _free_requests (self m) : gset request_t))).
Proof.
  intros Hrun.
  destruct (p2p_ready_dec (self m)) as [Hm|Hm].
  2:{ destruct (waitall_not_ready fuel ids m Hm) as (e & He & Hc).
      rewrite He in Hrun. injection Hrun as -> _. done. }
  destruct (waitall_released _ _ _ _ _ Hm Hrun) as (Hself & _); [done|].
  split.
  - intros x Hx. rewrite Hself. split; [by apply release_all_in_free|].
    by apply release_all_not_in_flight.
  - intros Hne buf size peer tag.
    assert (p2p_ready (self m')) as Hm'.
    { rewrite Hself. by apply release_all_ready. }
    assert (∀ id c', allocated (self m') id c' →
              id ∈ (list_to_set ids ∪ _free_requests (self m) : gset request_t))
      as Hin.
    { intros id c' Ha. rewrite <- release_all_free, <- Hself.
      destruct Ha as [(_ & Ha & _) | (Ha & _)]; [done|].
      exfalso. rewrite Hself, release_all_free in Ha.
      destruct ids as [|y ids]; [done|]. set_solver. }
    split.
    + destruct (isend_allocated buf size peer tag m' Hm') as (id & m'' & Hid & Ha).
      exists id, m''. split; [done|]. by eapply Hin.
    + destruct (irecv_allocated buf size peer tag m' Hm') as (id & m'' & Hid & Ha).
      exists id, m''. split; [done|]. by eapply Hin.
Qed.

(** C1, as the code has it.  Every identifier named in a [waitall]
    that passes the lookups is in the free set, and out of the
    in-flight table, when the call ends -- returned, timed out or
    otherwise failed while polling: the first loop released it before
    any polling.  Whatever the outcome, a request is handed to
    [free_ucp_request] only in a state of the runtimes in which it is
    complete; and when the call returns, the requests it has handed
    over are exactly those it named, so every one of them has been
    seen complete and cleaned up. *)
Theorem waitall_releases_at_lookup (fuel : nat) (ids : list request_t)
    (m m' : machine W) (o : outcome unit) :
  p2p_ready (self m) →
  waitall fuel ids m = (o, m') →
  (∀ x, o ≠ Throw (waitall_invalid_request x)) →
  (∀ x, x ∈ ids →
     x ∈ _free_requests (self m') ∧
     x ∉ dom (_requests_in_flight (self m')))
  ∧ ∃ t,
      trace m' = trace m ++ t ∧
      world m' = replay t (world m) ∧
      frees_only_complete (world m) t ∧
      (o = Return tt →
       ∃ found,
         Forall2 (λ x p, _requests_in_flight (self m) !! x = Some p) ids found ∧
         cleaned t ≡ₚ found).
Proof.
  intros Hm Hrun Ho.
  destruct (waitall_released _ _ _ _ _ Hm Hrun Ho)
    as (Hself & found & m1 & Hall & Ht & Hpoll).
  split.
  - intros x Hx. rewrite Hself. split; [by apply release_all_in_free|].
    by apply release_all_not_in_flight.
  - destruct (waitall_frees fuel ids m) as (t & Htr & Hw & Hf).
    rewrite Hrun in Htr, Hw. simpl in Htr, Hw.
    exists t. split; [done|]. split; [done|]. split; [done|].
    intros ->. apply waitall_poll_cleaned in Hpoll as (erased & Hc & Hp).
    exists found. split; [done|].
    rewrite Htr, cleaned_app, Ht, cleaned_app in Hc. simpl in Hc.
    rewrite app_nil_r in Hc. apply app_inv_head in Hc. by rewrite Hc.
Qed.

End claims.

(** ** The stream monitor *)

Lemma polls_app (t1 t2 : list call) : polls (t1 ++ t2) = (polls t1 + polls t2)%nat.
Proof. unfold polls. by rewrite List.filter_app, length_app. Qed.

Section monitor.
Context {W : Type} {env : Environment W}.

Lemma syncStream_trip_run (stream : Z) (m : machine W) :
  let Q := cudaStreamQuery stream in
  let A := ncclCommGetAsyncError (_nccl_comm (self m)) in
  let B := ncclCommAbort (_nccl_comm (self m)) in
  let q := query_answer stream m in
  let a := async_answer stream m in
  let b := abort_answer stream m in
  syncStream_trip stream m =
    if bool_decide (q.1 = cudaSuccess) then
      (Return (Some commStatusSuccess),
       Machine q.2 (trace m ++ [Q]) (self m))
    else if bool_decide (q.1 ≠ cudaErrorNotReady) then
      (Return (Some commStatusError),
       Machine q.2 (trace m ++ [Q]) (self m))
    else if bool_decide (a.1.1 ≠ ncclSuccess) then
      (Return (Some commStatusError),
       Machine a.2 (trace m ++ [Q; A]) (self m))
    else if bool_decide (a.1.2 ≠ ncclSuccess) then
      if bool_decide (b.1 ≠ ncclSuccess) then
        (Return (Some commStatusAbort),
         Machine b.2 (trace m ++ [Q; A; B]) (self m))
      else
        (Return None,
         Machine (respond pthread_yield b.2).2
           (trace m ++ [Q; A; B; pthread_yield]) (self m))
    else
      (Return None,
       Machine (respond pthread_yield a.2).2
         (trace m ++ [Q; A; pthread_yield]) (self m)).
Proof.
  intros Q A B q a b. unfold syncStream_trip.
  unfold bind at 1. rewrite invoke_run. fold Q. simpl.
  change (respond Q (world m)) with q.
  destruct (bool_decide (q.1 = cudaSuccess)); [done|].
  destruct (bool_decide (q.1 ≠ cudaErrorNotReady)); [done|].
  unfold bind at 1. unfold this. simpl. unfold bind at 1.
  rewrite invoke_run. simpl. fold A. change (respond A q.2) with a.
  destruct a.1 as [ncclErr ncclAsyncErr] eqn:Ha. simpl.
  destruct (bool_decide (ncclErr ≠ ncclSuccess)).
  { by rewrite <- app_assoc. }
  destruct (bool_decide (ncclAsyncErr ≠ ncclSuccess)).
  - unfold bind at 1. rewrite invoke_run. simpl. fold B.
    change (respond B a.2) with b.
    destruct (bool_decide (b.1 ≠ ncclSuccess)).
    + unfold ret. by rewrite <- !app_assoc.
    + unfold bind. rewrite invoke_run. unfold ret. simpl.
      by rewrite <- !app_assoc.
  - unfold bind. rewrite invoke_run. unfold ret. simpl.
    by rewrite <- !app_assoc.
Qed.

Lemma syncStream_trip_keeps (stream : Z) : keeps_self (syncStream_trip stream).
Proof.
  intros m. rewrite syncStream_trip_run. cbv zeta.
  repeat case_bool_decide; done.
Qed.

(** A trip never throws, polls the stream exactly once, and returns
    the abort status exactly when the abort it attempted failed. *)
Lemma syncStream_trip_outcome (stream : Z) (m : machine W) :
  ∃ r, (syncStream_trip stream m).1 = Return r ∧
       polls (trace (syncStream_trip stream m).2) = (polls (trace m) + 1)%nat ∧
       (r = Some commStatusAbort ↔ abort_fails stream m).
Proof.
  rewrite syncStream_trip_run. cbv zeta. unfold abort_fails.
  repeat case_bool_decide; eexists; (split; [done|]);
    simpl; rewrite polls_app; (split; [done|]);
    (split; [intros [=] | intros (? & ? & ? & ?)]); try done.
  congruence.
Qed.

Lemma syncStream_step (fuel : nat) (stream : Z) (m : machine W) :
  syncStream (S fuel) stream m =
    match syncStream_trip stream m with
    | (Return (Some status), m') => (Return status, m')
    | (Return None, m') => syncStream fuel stream m'
    | (Throw e, m') => (Throw e, m')
    | (Diverge, m') => (Diverge, m')
    end.
Proof.
  simpl. unfold bind. destruct (syncStream_trip stream m) as [[[s|]|e|] m']; done.
Qed.


Lemma syncStream_keeps (fuel : nat) (stream : Z) : keeps_self (syncStream fuel stream).
Proof.
  induction fuel as [|fuel IH]; intros m; [done|].
  rewrite syncStream_step. pose proof (syncStream_trip_keeps stream m) as Hk.
  destruct (syncStream_trip stream m) as [[[s|]|e|] m']; simpl in *; try done.
  by rewrite IH.
Qed.

(** After [n] pending trips and a query that reports completion, the
    monitor returns success, having polled [n + 1] times. *)
Lemma syncStream_pending_then_success (n fuel : nat) (stream : Z)
    (m m1 : machine W) :
  stream_pending n stream m = Some m1 →
  (query_answer stream m1).1 = cudaSuccess →
  (n < fuel)%nat →
  (syncStream fuel stream m).1 = Return commStatusSuccess ∧
  polls (trace (syncStream fuel stream m).2) = (polls (trace m) + n + 1)%nat.
Proof.
  revert fuel m. induction n as [|n IH]; intros fuel m Hp Hq Hlt;
    (destruct fuel as [|fuel]; [lia|]); rewrite syncStream_step.
  - injection Hp as ->.
    rewrite syncStream_trip_run. cbv zeta. rewrite Hq.
    rewrite bool_decide_eq_true_2 by done. simpl. rewrite polls_app. simpl.
    split; [done|]. unfold polls at 2. simpl. lia.
  - simpl in Hp.
    destruct (syncStream_trip_outcome stream m) as (r & Hr & Hpolls & _).
    destruct (syncStream_trip stream m) as [o m'] eqn:Htrip.
    simpl in Hr, Hpolls. subst o. destruct r as [status|]; [done|].
    destruct (IH fuel m' Hp Hq ltac:(lia)) as [Hs Hn].
    split; [done|]. rewrite Hn, Hpolls. lia.
Qed.


End monitor.

Section monitor_runs.
Context {W : Type} {env : Environment W}.


Lemma syncStream_trip_trace (stream : Z) (m : machine W) :
  ∃ rest, trace (syncStream_trip stream m).2 =
            trace m ++ cudaStreamQuery stream :: rest.
Proof.
  rewrite syncStream_trip_run. cbv zeta.
  repeat case_bool_decide; simpl; by eexists.
Qed.

Lemma syncStream_trace (fuel : nat) (stream : Z) (m : machine W) :
  ∃ rest, trace (syncStream fuel stream m).2 = trace m ++ rest.
Proof.
  revert m. induction fuel as [|fuel IH]; intros m.
  - exists []. by rewrite app_nil_r.
  - rewrite syncStream_step.
    destruct (syncStream_trip_trace stream m) as (rest & Ht).
    destruct (syncStream_trip stream m) as [[[s|]|e|] m']; simpl in *;
      try by eexists.
    destruct (IH m') as (rest' & ->). rewrite Ht, <- app_assoc. by eexists.
Qed.



End monitor_runs.

(** ** The collective facade *)

Lemma ptr_add_size_t_mul (p d sz : Z) :
  ptr_add p (size_t_mul (to_size_t d) sz) = ptr_add p (d * sz).
Proof.
  unfold ptr_add, size_t_mul, to_size_t.
  rewrite Zmult_mod_idemp_l. by rewrite Zplus_mod_idemp_r.
Qed.

Lemma seqZ_succ (root : Z) (k : nat) :
  seqZ root (Z.of_nat (S k)) = root :: seqZ (root + 1) (Z.of_nat k).
Proof.
  rewrite seqZ_cons by lia. f_equal. f_equal; lia.
Qed.

Section collectives.
Context {W : Type} {env : Environment W}.

Lemma allgatherv_from_step (n : nat) (root sendbuf recvbuf : Z)
    (recvcounts displs : Z → Z) (datatype : comms.datatype_t) (stream : Z)
    (m : machine W) :
  let issue := allgatherv_call (self m) sendbuf recvbuf recvcounts displs
                 datatype stream in
  let m1 := Machine (respond (issue root) (world m)).2
              (trace m ++ [issue root]) (self m) in
  allgatherv_from (S n) root sendbuf recvbuf recvcounts displs datatype stream m =
    if bool_decide (ncclSuccess = (respond (issue root) (world m)).1) then
      allgatherv_from n (root + 1) sendbuf recvbuf recvcounts displs datatype
        stream m1
    else (Throw (NCCL_call_failed (respond (issue root) (world m)).1), m1).
Proof.
  intros issue m1. cbn [allgatherv_from]. unfold bind at 1. unfold this.
  unfold bind at 1. rewrite invoke_run. fold issue. fold m1.
  unfold NCCL_CHECK, ASSERT, bind. by case_bool_decide.
Qed.

(** The loop issues the broadcasts of consecutive roots, in order,
    until one fails or all are done. *)
Lemma allgatherv_from_run (n : nat) (root sendbuf recvbuf : Z)
    (recvcounts displs : Z → Z) (datatype : comms.datatype_t) (stream : Z)
    (m : machine W) :
  let issue := allgatherv_call (self m) sendbuf recvbuf recvcounts displs
                 datatype stream in
  let r := allgatherv_from n root sendbuf recvbuf recvcounts displs datatype
             stream m in
  self r.2 = self m ∧
  ∃ k : nat,
    (k ≤ n)%nat ∧
    trace r.2 = trace m ++ map issue (seqZ root (Z.of_nat k)) ∧
    ((r.1 = Return tt ∧ k = n)
     ∨ (∃ status root' w,
          status ≠ ncclSuccess ∧ (respond (issue root') w).1 = status ∧
          r.1 = Throw (NCCL_call_failed status) ∧ (0 < k)%nat)).
Proof.
  revert root m. induction n as [|n IH]; intros root m issue r.
  - split; [done|]. exists 0%nat. split; [done|]. split.
    + simpl. by rewrite app_nil_r.
    + by left.
  - subst r. rewrite allgatherv_from_step. fold issue. case_bool_decide as Hst.
    + specialize (IH (root + 1)
                    (Machine (respond (issue root) (world m)).2
                       (trace m ++ [issue root]) (self m))).
      cbv zeta in IH. simpl self in IH. fold issue in IH.
      destruct IH as (Hself & k & Hk & Ht & Hout).
      split; [done|]. exists (S k). split; [lia|]. split.
      * rewrite Ht. simpl trace. rewrite seqZ_succ, <- app_assoc. done.
      * destruct Hout as [[Ho ->] | (status & root' & w & Hne & Hw & Ho & _)].
        -- by left.
        -- right. exists status, root', w. split_and!; try done. lia.
    + split; [done|]. exists 1%nat. split; [lia|]. split; [done|].
      right. exists (respond (issue root) (world m)).1, root, (world m).
      split; [|split; [done|split; [done|lia]]].
      intros Heq. by rewrite Heq in Hst.
Qed.

Lemma barrier_run (fuel : nat) (m : machine W) :
  let c := self m in
  let M1 := cudaMemsetAsync (_sendbuff c) 1 sizeof_int (_stream c) in
  let M2 := cudaMemsetAsync (_recvbuff c) 1 sizeof_int (_stream c) in
  let R := ncclAllReduce (_sendbuff c) (_recvbuff c) 1 ncclInt ncclSum
             (_nccl_comm c) (_stream c) in
  let e1 := respond M1 (world m) in
  let e2 := respond M2 e1.2 in
  let e3 := respond R e2.2 in
  barrier fuel m =
    if bool_decide (cudaSuccess = e1.1) then
      if bool_decide (cudaSuccess = e2.1) then
        if bool_decide (ncclSuccess = e3.1) then
          bind (syncStream fuel (_stream c))
            (λ status,
               ASSERT (bool_decide (status = commStatusSuccess)) syncStream_failed)
            (Machine e3.2 (trace m ++ [M1; M2; R]) c)
        else (Throw (NCCL_call_failed e3.1),
              Machine e3.2 (trace m ++ [M1; M2; R]) c)
      else (Throw (CUDA_call_failed e2.1), Machine e2.2 (trace m ++ [M1; M2]) c)
    else (Throw (CUDA_call_failed e1.1), Machine e1.2 (trace m ++ [M1]) c).
Proof.
  intros c M1 M2 R e1 e2 e3. subst e3 e2 e1 R M2 M1 c.
  unfold barrier, allreduce, CUDA_CHECK, NCCL_CHECK.
  rewrite bind_this, bind_invoke, bind_ASSERT.
  case_bool_decide; [|done]. cbv beta.
  rewrite bind_invoke, bind_ASSERT. cbn [world trace self].
  case_bool_decide; [|rewrite <- app_assoc; reflexivity]. cbv beta.
  rewrite bind_bind, bind_this. cbv beta.
  rewrite bind_bind, bind_invoke, bind_ASSERT.
  cbn [world trace self getNCCLDatatype getNCCLOp].
  case_bool_decide; rewrite <- !app_assoc; reflexivity.
Qed.

Lemma replay_cons (c : call) (t : list call) (w : W) :
  replay (c :: t) w = replay t (respond c w).2.
Proof. reflexivity. Qed.

Lemma seqZ_front (root : Z) (j : nat) :
  seqZ root (Z.of_nat (S j)) = root :: seqZ (root + 1) (Z.of_nat j).
Proof.
  rewrite seqZ_cons by lia. f_equal.
  replace (Z.pred (Z.of_nat (S j))) with (Z.of_nat j) by lia. done.
Qed.

(** The loop of [allgatherv], by what NCCL answers: it runs to the end
    when every broadcast is accepted, and otherwise stops behind the
    first one that is not, throwing the status NCCL gave for it. *)
Lemma allgatherv_from_exact (n : nat) (root sendbuf recvbuf : Z)
    (recvcounts displs : Z → Z) (datatype : comms.datatype_t) (stream : Z)
    (m : machine W) :
  let issue := allgatherv_call (self m) sendbuf recvbuf recvcounts displs
                 datatype stream in
  let answer (j : nat) : ncclResult_t :=
    (respond (issue (root + Z.of_nat j))
       (replay (map issue (seqZ root (Z.of_nat j))) (world m))).1 in
  let after (k : nat) :=
    Machine (replay (map issue (seqZ root (Z.of_nat k))) (world m))
      (trace m ++ map issue (seqZ root (Z.of_nat k))) (self m) in
  let r := allgatherv_from n root sendbuf recvbuf recvcounts displs datatype
             stream m in
  ((∀ j, (j < n)%nat → answer j = ncclSuccess) → r = (Return tt, after n))
  ∧ (∀ k, (k < n)%nat → (∀ j, (j < k)%nat → answer j = ncclSuccess) →
          answer k ≠ ncclSuccess →
          r = (Throw (NCCL_call_failed (answer k)), after (S k))).
Proof.
  revert root m. induction n as [|n IH]; intros root m issue answer after r.
  - split; [|intros k Hk; lia]. intros _. subst r after. simpl.
    rewrite app_nil_r. by destruct m.
  - subst r. rewrite allgatherv_from_step. fold issue.
    set (m1 := Machine (respond (issue root) (world m)).2
                 (trace m ++ [issue root]) (self m)).
    assert (answer 0%nat = (respond (issue root) (world m)).1) as H0.
    { subst answer. cbv beta. simpl Z.of_nat. by rewrite Z.add_0_r. }
    specialize (IH (root + 1) m1). cbv zeta in IH. simpl self in IH.
    fold issue in IH. destruct IH as [IHok IHfail].
    assert (∀ j : nat,
              (respond (issue (root + 1 + Z.of_nat j))
                 (replay (map issue (seqZ (root + 1) (Z.of_nat j))) (world m1))).1
              = answer (S j)) as Hshift.
    { intros j. subst answer. cbv beta. rewrite seqZ_front.
      simpl map. rewrite replay_cons.
      replace (root + Z.of_nat (S j)) with (root + 1 + Z.of_nat j) by lia.
      done. }
    assert (∀ k : nat,
              Machine (replay (map issue (seqZ (root + 1) (Z.of_nat k))) (world m1))
                (trace m1 ++ map issue (seqZ (root + 1) (Z.of_nat k))) (self m)
              = after (S k)) as Hafter.
    { intros k. subst after. cbv beta. rewrite seqZ_front. simpl map.
      rewrite replay_cons. simpl trace. by rewrite <- app_assoc. }
    split.
    + intros Hall. rewrite <- H0, (Hall 0%nat) by lia.
      rewrite bool_decide_eq_true_2 by done.
      rewrite IHok, Hafter; [done|]. intros j Hj. rewrite Hshift. apply Hall. lia.
    + intros k Hk Hbefore Hfail. destruct k as [|k].
      * rewrite <- H0. rewrite bool_decide_eq_false_2 by (intros Heq; by apply Hfail).
        subst after m1. cbv beta. simpl. done.
      * rewrite <- H0, (Hbefore 0%nat) by lia.
        rewrite bool_decide_eq_true_2 by done.
        rewrite (IHfail k), Hafter, Hshift; [done|lia| |by rewrite Hshift].
        intros j Hj. rewrite Hshift. apply Hbefore. lia.
Qed.

End collectives.

Section pending.
Context {W : Type} {env : Environment W}.

(** A trip of the loop goes round exactly when the runtimes keep the
    stream pending, and leaves the machine they leave. *)
Lemma still_pending_eq (n : nat) (stream : Z) (m : machine W) :
  still_pending n stream m = stream_pending n stream m.
Proof.
  revert m. induction n as [|n IH]; intros m; [done|].
  cbn [still_pending stream_pending]. rewrite syncStream_trip_run. cbv zeta.
  unfold pending_calls, abort_answer, async_answer, query_answer.
  repeat case_bool_decide; try congruence; try done; apply IH.
Qed.

Lemma still_pending_replay (n : nat) (stream : Z) (m m1 : machine W) :
  still_pending n stream m = Some m1 →
  ∃ t, trace m1 = trace m ++ t ∧ world m1 = replay t (world m) ∧
       self m1 = self m.
Proof.
  revert m. induction n as [|n IH]; intros m Hp.
  - injection Hp as <-. exists []. by rewrite app_nil_r.
  - cbn [still_pending] in Hp.
    destruct (pending_calls stream (_nccl_comm (self m)) (world m)) as [t1|];
      [|done].
    destruct (IH _ Hp) as (t2 & Ht & Hw & Hs). simpl in Ht, Hw, Hs.
    exists (t1 ++ t2). rewrite replay_app, app_assoc. done.
Qed.

End pending.

Section collective_claims.
Context {W : Type} {env : Environment W}.

(** C5, as the code has it.  [allgatherv] issues broadcasts in the
    fixed order root = 0, 1, ..., each for [recvcounts[root]] elements
    of the datatype into the receive buffer at byte offset
    [displs[root] * getDatatypeSize datatype].  When NCCL accepts the
    broadcast of every rank it issues exactly one per rank and
    returns.  When NCCL accepts those for the roots below [k] and
    answers the one for [k] with an error, it issues the broadcasts
    for 0 .. k and no other, and throws with that error.  Whenever it
    returns it has issued exactly one broadcast per rank. *)
Theorem allgatherv_broadcasts (sendbuf recvbuf : Z) (recvcounts displs : Z → Z)
    (datatype : comms.datatype_t) (stream : Z) (m : machine W) :
  let c := self m in
  let issue := allgatherv_call c sendbuf recvbuf recvcounts displs datatype
                 stream in
  let answer := broadcast_answer c sendbuf recvbuf recvcounts displs datatype
                  stream (world m) in
  let after (k : Z) :=
    Machine (replay (map issue (seqZ 0 k)) (world m))
      (trace m ++ map issue (seqZ 0 k)) c in
  let r := allgatherv sendbuf recvbuf recvcounts displs datatype stream m in
  (∀ root,
     issue root =
       ncclBroadcast sendbuf
         (ptr_add recvbuf (displs root * getDatatypeSize datatype))
         (recvcounts root) (getNCCLDatatype datatype) root (_nccl_comm c)
         stream)
  ∧ ((∀ j, 0 ≤ j < _size c → answer j = ncclSuccess) →
     r = (Return tt, after (_size c)))
  ∧ (∀ k, 0 ≤ k < _size c →
          (∀ j, 0 ≤ j < k → answer j = ncclSuccess) →
          answer k ≠ ncclSuccess →
          r = (Throw (NCCL_call_failed (answer k)), after (k + 1)))
  ∧ (r.1 = Return tt → trace r.2 = trace m ++ map issue (seqZ 0 (_size c))).
Proof.
  intros c issue answer after r.
  assert (r.1 = Return tt →
          trace r.2 = trace m ++ map issue (seqZ 0 (_size c))) as Hreturned.
  { pose proof (allgatherv_from_run (Z.to_nat (_size c)) 0 sendbuf recvbuf
                  recvcounts displs datatype stream m) as Hrun.
    cbv zeta in Hrun. fold c issue in Hrun.
    change (allgatherv_from (Z.to_nat (_size c)) 0 sendbuf recvbuf recvcounts
              displs datatype stream m) with r in Hrun.
    destruct Hrun as (_ & k & Hk & Ht & Hout). intros Hret.
    destruct Hout as [[_ ->] | (status & _ & _ & _ & _ & Ho & _)];
      [|by rewrite Ho in Hret].
    rewrite Ht. unfold seqZ. by rewrite Nat2Z.id. }
  pose proof (allgatherv_from_exact (Z.to_nat (_size c)) 0 sendbuf recvbuf
                recvcounts displs datatype stream m) as Hrun.
  cbv zeta in Hrun. fold c issue in Hrun.
  change (allgatherv_from (Z.to_nat (_size c)) 0 sendbuf recvbuf recvcounts
            displs datatype stream m) with r in Hrun.
  assert (∀ j : nat,
            (respond (issue (0 + Z.of_nat j))
               (replay (map issue (seqZ 0 (Z.of_nat j))) (world m))).1
            = answer (Z.of_nat j)) as Hanswer by done.
  destruct Hrun as [Hok Hfail].
  split; [|split; [|split]]; [| | |exact Hreturned].
  - intros root. unfold issue, allgatherv_call.
    by rewrite ptr_add_size_t_mul.
  - intros Hall. rewrite Hok.
    + subst after. cbv beta. unfold seqZ. by rewrite Nat2Z.id.
    + intros j Hj. rewrite Hanswer. apply Hall. lia.
  - intros k Hk Hbefore Hne.
    specialize (Hfail (Z.to_nat k)).
    rewrite !Hanswer in Hfail.
    replace (Z.of_nat (S (Z.to_nat k))) with (k + 1) in Hfail by lia.
    replace (Z.of_nat (Z.to_nat k)) with k in Hfail by lia.
    apply Hfail; [lia| |done].
    intros j Hj. rewrite Hanswer. apply Hbefore. lia.
Qed.

(** C6, as the code has it.  [barrier] sets the scratch send buffer
    and then the scratch receive buffer to the byte 1 on the
    communicator's stream, issues the one-element sum all-reduce over
    them on that stream, and then runs [syncStream] on it, each step
    only if the one before succeeded: a failing memset or all-reduce
    is thrown at once.  When all three succeed the stream is polled,
    and [barrier] returns if [syncStream] reports success and throws
    if it reports anything else. *)
Theorem barrier_sequence (fuel : nat) (m : machine W) :
  let c := self m in
  let M1 := cudaMemsetAsync (_sendbuff c) 1 sizeof_int (_stream c) in
  let M2 := cudaMemsetAsync (_recvbuff c) 1 sizeof_int (_stream c) in
  let R := ncclAllReduce (_sendbuff c) (_recvbuff c) 1 ncclInt ncclSum
             (_nccl_comm c) (_stream c) in
  let e1 := respond M1 (world m) in
  let e2 := respond M2 e1.2 in
  let e3 := respond R e2.2 in
  let s := syncStream fuel (_stream c)
             (Machine e3.2 (trace m ++ [M1; M2; R]) c) in
  (cudaSuccess = e1.1 → cudaSuccess = e2.1 → ncclSuccess = e3.1 →
     (barrier fuel m).2 = s.2 ∧
     (∃ rest, trace s.2 = trace m ++ [M1; M2; R] ++ rest ∧
              ((0 < fuel)%nat → ∃ rest', rest = cudaStreamQuery (_stream c) :: rest')) ∧
     (barrier fuel m).1 =
       match s.1 with
       | Return commStatusSuccess => Return tt
       | Return _ => Throw syncStream_failed
       | Throw e => Throw e
       | Diverge => Diverge
       end)
  ∧ (cudaSuccess ≠ e1.1 →
     barrier fuel m =
       (Throw (CUDA_call_failed e1.1), Machine e1.2 (trace m ++ [M1]) c))
  ∧ (cudaSuccess = e1.1 → cudaSuccess ≠ e2.1 →
     barrier fuel m =
       (Throw (CUDA_call_failed e2.1), Machine e2.2 (trace m ++ [M1; M2]) c))
  ∧ (cudaSuccess = e1.1 → cudaSuccess = e2.1 → ncclSuccess ≠ e3.1 →
     barrier fuel m =
       (Throw (NCCL_call_failed e3.1),
        Machine e3.2 (trace m ++ [M1; M2; R]) c)).
Proof.
  intros c M1 M2 R e1 e2 e3 s.
  pose proof (barrier_run fuel m) as Hrun. cbv zeta in Hrun.
  fold c M1 M2 R e1 e2 e3 in Hrun.
  split; [|split; [|split]].
  - intros H1 H2 H3. rewrite Hrun.
    rewrite (bool_decide_eq_true_2 _ H1), (bool_decide_eq_true_2 _ H2),
      (bool_decide_eq_true_2 _ H3).
    unfold bind. fold s. split; [|split].
    + destruct s as [[status| |] ms]; [|done|done]. by destruct status.
    + destruct fuel as [|fuel].
      * exists []. subst s. simpl. split; [done | lia].
      * subst s. rewrite syncStream_step.
        destruct (syncStream_trip_trace (_stream c)
                    (Machine e3.2 (trace m ++ [M1; M2; R]) c)) as (rest1 & Ht1).
        destruct (syncStream_trip (_stream c)
                    (Machine e3.2 (trace m ++ [M1; M2; R]) c))
          as [[[status|]|e|] m1]; simpl in Ht1 |- *;
          try (exists (cudaStreamQuery (_stream c) :: rest1);
               rewrite Ht1, <- app_assoc; split; [done | by eexists]).
        destruct (syncStream_trace fuel (_stream c) m1) as (rest2 & ->).
        rewrite Ht1. exists (cudaStreamQuery (_stream c) :: rest1 ++ rest2).
        rewrite <- !app_assoc. split; [done | by eexists].
    + destruct s as [[status| |] ms]; [|done|done]. by destruct status.
  - intros H1. rewrite Hrun. by rewrite (bool_decide_eq_false_2 _ H1).
  - intros H1 H2. rewrite Hrun.
    by rewrite (bool_decide_eq_true_2 _ H1), (bool_decide_eq_false_2 _ H2).
  - intros H1 H2 H3. rewrite Hrun.
    by rewrite (bool_decide_eq_true_2 _ H1), (bool_decide_eq_true_2 _ H2),
      (bool_decide_eq_false_2 _ H3).
Qed.


End collective_claims.

(** ** Runs on the scripted environment *)

Module Runs.
Import Mock Scenario.

Lemma outcome_and_machine {A} (r : outcome A * machine Mock.t) (o : outcome A) :
  r.1 = o → r = (o, r.2).
Proof. destruct r as [o' m']. simpl. by intros ->. Qed.

Lemma one_pending_ready : p2p_ready (self one_pending).
Proof. split; [vm_compute; reflexivity | vm_compute; discriminate]. Qed.

Lemma one_complete_ready : p2p_ready (self one_complete).
Proof. split; [vm_compute; reflexivity | vm_compute; discriminate]. Qed.

Lemma request_id_allocation_witness :
  p2p_ready (self (waitall 20 [0] one_pending).2) ∧
  ∃ id m',
    isend 8 4 1 9 (waitall 20 [0] one_pending).2 = (Return id, m') ∧
    allocated (self (waitall 20 [0] one_pending).2) id (self m').
Proof.
  assert (p2p_ready (self (waitall 20 [0] one_pending).2)) as Hr.
  { split; [vm_compute; reflexivity | vm_compute; discriminate]. }
  split; [exact Hr|].
  exact (proj1 (proj2 (request_id_allocation (waitall 20 [0] one_pending).2))
           Hr 8 4 1 9).
Defined.

Lemma free_set_disjoint_from_in_flight_witness :
  _requests_in_flight (self fresh) = ∅ ∧
  _free_requests (self fresh) = ∅ ∧
  let m := perform_all
             [do_isend 0 4 1 7; do_irecv 16 4 1 7; do_waitall 20 [0];
              do_isend 8 4 1 9; do_waitall 20 [5]] fresh in
  _free_requests (self m) ## dom (_requests_in_flight (self m)).
Proof.
  split; [reflexivity|]. split; [reflexivity|].
  apply (free_set_disjoint_from_in_flight fresh); reflexivity.
Defined.

Lemma p2p_call_without_transport_witness :
  (p2p_enabled (self collective_only) = false ∨
   _ucp_worker (self collective_only) = nullptr) ∧
  (∃ e, isend 0 4 1 7 collective_only = (Throw e, collective_only) ∧
        configuration_error e = true) ∧
  (∃ e, waitall 20 [0] collective_only = (Throw e, collective_only) ∧
        configuration_error e = true).
Proof.
  assert (p2p_enabled (self collective_only) = false ∨
          _ucp_worker (self collective_only) = nullptr) as Hc.
  { left. reflexivity. }
  split; [exact Hc|].
  destruct (p2p_call_without_transport collective_only Hc) as (Hs & _ & Hw).
  split; [apply Hs | apply Hw].
Defined.

Lemma waitall_invalid_request_not_atomic_witness :
  ∃ m',
    waitall 20 ([0] ++ 7 :: []) one_pending =
      (Throw (waitall_invalid_request 7), m') ∧
    trace m' = trace one_pending ++ [time_NULL] ∧
    0 ∈ _free_requests (self m') ∧
    0 ∉ dom (_requests_in_flight (self m')).
Proof.
  destruct (proj1 (waitall_invalid_request_not_atomic 20 ([0] ++ 7 :: [])
                     one_pending) [0] 7 [])
    as (m' & Hrun & Ht & _ & Hpre & _).
  - reflexivity.
  - exact one_pending_ready.
  - apply NoDup_singleton.
  - intros y ->%list_elem_of_singleton. apply elem_of_dom.
    eexists. vm_compute. reflexivity.
  - left. apply not_elem_of_dom. vm_compute. reflexivity.
  - exists m'. split; [exact Hrun|]. split; [exact Ht|].
    apply Hpre. apply list_elem_of_singleton. reflexivity.
Defined.

Lemma waitall_timeout_releases_all_witness :
  (waitall 20 [0] one_pending).1 = Throw waitall_timed_out ∧
  0 ∈ _free_requests (self (waitall 20 [0] one_pending).2) ∧
  0 ∉ dom (_requests_in_flight (self (waitall 20 [0] one_pending).2)).
Proof.
  assert ((waitall 20 [0] one_pending).1 = Throw waitall_timed_out) as Ho.
  { vm_compute. reflexivity. }
  split; [exact Ho|].
  apply (proj1 (waitall_timeout_releases_all 20 [0] one_pending
                  (waitall 20 [0] one_pending).2
                  (outcome_and_machine _ _ Ho))).
  apply list_elem_of_singleton. reflexivity.
Defined.

Lemma waitall_releases_at_lookup_witness :
  p2p_ready (self one_complete) ∧
  (waitall 20 [0] one_complete).1 = Return tt ∧
  0 ∈ _free_requests (self (waitall 20 [0] one_complete).2) ∧
  (0 ∉ dom (_requests_in_flight (self (waitall 20 [0] one_complete).2))) ∧
  ∃ t found,
    trace (waitall 20 [0] one_complete).2 = trace one_complete ++ t ∧
    frees_only_complete (world one_complete) t ∧
    cleaned t ≡ₚ found ∧
    Forall2 (λ x p, _requests_in_flight (self one_complete) !! x = Some p)
      [0] found.
Proof.
  assert ((waitall 20 [0] one_complete).1 = Return tt) as Ho.
  { vm_compute. reflexivity. }
  split; [exact one_complete_ready|]. split; [exact Ho|].
  destruct (waitall_releases_at_lookup 20 [0] one_complete
              (waitall 20 [0] one_complete).2 (Return tt)
              one_complete_ready
              (outcome_and_machine _ _ Ho)
              (λ x (Hx : Return tt = Throw (waitall_invalid_request x)),
                 eq_ind (Return tt)
                   (λ o, match o with Return _ => True | _ => False end)
                   I _ Hx))
    as (Hreleased & t & Ht & _ & Hcomplete & Hreturned).
  destruct (Hreturned eq_refl) as (found & Hfound & Hcleaned).
  split; [|split].
  - apply Hreleased, list_elem_of_singleton. reflexivity.
  - apply Hreleased, list_elem_of_singleton. reflexivity.
  - exists t, found. split; [exact Ht|]. split; [exact Hcomplete|].
    split; [exact Hcleaned | exact Hfound].
Defined.

Lemma allgatherv_broadcasts_witness :
  (0 ≤ 1 < _size (self nccl_fails_second)) ∧
  broadcast_answer (self nccl_fails_second) 100 200 counts offsets comms.INT 9
    (world nccl_fails_second) 0 = ncclSuccess ∧
  broadcast_answer (self nccl_fails_second) 100 200 counts offsets comms.INT 9
    (world nccl_fails_second) 1 = ncclError 2 ∧
  (allgatherv 100 200 counts offsets comms.INT 9 nccl_fails_second).1 =
    Throw (NCCL_call_failed (ncclError 2)) ∧
  trace (allgatherv 100 200 counts offsets comms.INT 9 nccl_fails_second).2 =
    [ncclBroadcast 100 200 2 ncclInt 0 1 9;
     ncclBroadcast 100 208 3 ncclInt 1 1 9].
Proof.
  assert (0 ≤ 1 < _size (self nccl_fails_second)) as Hin.
  { vm_compute. split; [discriminate | reflexivity]. }
  assert (broadcast_answer (self nccl_fails_second) 100 200 counts offsets
            comms.INT 9 (world nccl_fails_second) 0 = ncclSuccess) as H0.
  { vm_compute. reflexivity. }
  assert (broadcast_answer (self nccl_fails_second) 100 200 counts offsets
            comms.INT 9 (world nccl_fails_second) 1 = ncclError 2) as H1.
  { vm_compute. reflexivity. }
  split; [exact Hin|]. split; [exact H0|]. split; [exact H1|].
  destruct (allgatherv_broadcasts 100 200 counts offsets comms.INT 9
              nccl_fails_second) as (_ & _ & Hfail & _).
  rewrite (Hfail 1 Hin).
  - vm_compute. split; reflexivity.
  - intros j Hj. replace j with 0 by lia. exact H0.
  - rewrite H1. discriminate.
Defined.

Lemma barrier_sequence_witness :
  (barrier 5 collective_only).1 = Return tt ∧
  trace (barrier 5 collective_only).2 =
    [cudaMemsetAsync 256 1 4 2; cudaMemsetAsync 512 1 4 2;
     ncclAllReduce 256 512 1 ncclInt ncclSum 1 2; cudaStreamQuery 2].
Proof.
  destruct (barrier_sequence 5 collective_only) as (Hok & _).
  destruct Hok as (Hm & _ & Ho); [reflexivity | reflexivity | reflexivity |].
  split.
  - rewrite Ho. vm_compute. reflexivity.
  - rewrite Hm. vm_compute. reflexivity.
Defined.


(** An identifier is in the free set before its operation has been
    polled, and comes back from [isend] while the operation is still
    pending: the first loop of [waitall] has released it, the wait
    has timed out without a single completion, and the next [isend]
    returns it again. *)
Lemma request_id_reused_while_pending :
  (isend 0 4 1 7 fresh).1 = Return 0 ∧
  elements (_free_requests
              (self (waitall_lookup [0] [] one_pending).2)) = [0] ∧
  trace (waitall_lookup [0] [] one_pending).2 = trace one_pending ∧
  (waitall 20 [0] one_pending).1 = Throw waitall_timed_out ∧
  cleaned (trace (waitall 20 [0] one_pending).2) = [] ∧
  completed (world (waitall 20 [0] one_pending).2) 4096 = 0 ∧
  (isend 8 4 1 9 (waitall 20 [0] one_pending).2).1 = Return 0.
Proof. vm_compute. repeat split; reflexivity. Qed.

(** After a timeout the identifiers of the two operations that never
    completed are both in the free set, and the next two allocations
    hand them out again. *)
Lemma timed_out_identifiers_are_reusable :
  (waitall 20 [0; 1] two_pending).1 = Throw waitall_timed_out ∧
  cleaned (trace (waitall 20 [0; 1] two_pending).2) = [] ∧
  elements (_free_requests (self (waitall 20 [0; 1] two_pending).2)) = [1; 0] ∧
  (isend 8 4 1 9 (waitall 20 [0; 1] two_pending).2).1 = Return 1 ∧
  (irecv 24 4 1 9 (isend 8 4 1 9 (waitall 20 [0; 1] two_pending).2).2).1
    = Return 0.
Proof. vm_compute. repeat split; reflexivity. Qed.

(** With two ranks and a first broadcast that fails, [allgatherv]
    issues one broadcast, not two. *)
Lemma allgatherv_stops_at_failed_broadcast :
  _size (self nccl_down) = 2 ∧
  (allgatherv 100 200 counts offsets comms.INT 9 nccl_down).1 =
    Throw (NCCL_call_failed (ncclError 2)) ∧
  trace (allgatherv 100 200 counts offsets comms.INT 9 nccl_down).2 =
    [ncclBroadcast 100 200 2 ncclInt 0 1 9].
Proof. vm_compute. repeat split; reflexivity. Qed.

(** When the all-reduce fails, [barrier] throws there and never waits
    on the stream. *)
Lemma barrier_stops_at_failed_allreduce :
  (barrier 5 nccl_down).1 = Throw (NCCL_call_failed (ncclError 2)) ∧
  trace (barrier 5 nccl_down).2 =
    [cudaMemsetAsync 256 1 4 2; cudaMemsetAsync 512 1 4 2;
     ncclAllReduce 256 512 1 ncclInt ncclSum 1 2] ∧
  polls (trace (barrier 5 nccl_down).2) = 0%nat.
Proof. vm_compute. repeat split; reflexivity. Qed.

End Runs.

(** ** The registry over whole runs *)

Section registry_runs.
Context {W : Type} {env : Environment W} {order : IterationOrder}.

Lemma registry_fresh_exact (c : std_comms) : registry_fresh c → registry_exact c.
Proof.
  intros (Hn & Ht & Hf). unfold registry_exact, registry_disjoint.
  rewrite Hn, Ht, Hf, dom_empty_L. split; [set_solver|]. split; [lia|].
  intros id. split; [set_solver | lia].
Qed.

Lemma release_exact (r : request_t) (p : ucp_request) (c : std_comms) :
  _requests_in_flight c !! r = Some p →
  registry_exact c → registry_exact (release r c).
Proof.
  intros Hr (Hd & Hn & Hx). split; [by apply release_disjoint|].
  split; [exact Hn|]. intros id. rewrite <- Hx. simpl.
  rewrite dom_delete_L. apply elem_of_dom_2 in Hr.
  destruct (decide (id = r)) as [->|Hne]; set_solver.
Qed.

Lemma waitall_lookup_exact (ids : list request_t) (requests : list ucp_request)
    (m : machine W) :
  registry_exact (self m) →
  registry_exact (self (waitall_lookup ids requests m).2).
Proof.
  revert requests m. induction ids as [|r rest IH]; intros requests m Hm; [done|].
  destruct (_requests_in_flight (self m) !! r) as [p|] eqn:Hr.
  - rewrite (waitall_lookup_found _ _ _ _ _ Hr). apply IH. simpl.
    by eapply release_exact.
  - by rewrite (waitall_lookup_missing _ _ _ _ Hr).
Qed.

(** Whatever its outcome, a wait on a ready communicator leaves the
    object as its first loop left it. *)
Lemma waitall_self_lookup (fuel : nat) (ids : list request_t) (m : machine W) :
  p2p_ready (self m) →
  self (waitall fuel ids m).2 =
    self (waitall_lookup ids []
            (Machine (respond time_NULL (world m)).2 (trace m ++ [time_NULL])
               (self m))).2.
Proof.
  intros Hm. rewrite (waitall_ready _ _ _ Hm). unfold bind.
  destruct (waitall_lookup ids [] _) as [[found|e|] m2]; [|done|done].
  by rewrite waitall_poll_keeps.
Qed.

Lemma waitall_exact (fuel : nat) (ids : list request_t) (m : machine W) :
  registry_exact (self m) → registry_exact (self (waitall fuel ids m).2).
Proof.
  intros Hx. destruct (p2p_ready_dec (self m)) as [Hm|Hm].
  - rewrite (waitall_self_lookup _ _ _ Hm). by apply waitall_lookup_exact.
  - by destruct (waitall_not_ready fuel ids m Hm) as (e & -> & _).
Qed.

(** Registering the identifier an allocation returned keeps the
    registry exact, and the identifier was not in the table. *)
Lemma allocated_register_exact (c c1 : std_comms) (id : request_t) (r : ucp_request) :
  registry_exact c →
  allocated c id c1 →
  _requests_in_flight c1 = _requests_in_flight c →
  (id ∉ dom (_requests_in_flight c)) ∧
  registry_exact
    (set_requests_in_flight (map_insert_new id r (_requests_in_flight c1)) c1).
Proof.
  intros (Hd & Hn & Hx) Ha Hfl.
  assert (id ∉ dom (_requests_in_flight c)) as Hid.
  { destruct Ha as [(_ & Hin & _) | (Hf & -> & _)].
    - unfold registry_disjoint in Hd. set_solver.
    - intros Hin. assert (0 ≤ _next_request_id c < _next_request_id c); [|lia].
      apply Hx. by left. }
  split; [exact Hid|]. unfold registry_exact, registry_disjoint. simpl.
  rewrite dom_map_insert_new, Hfl.
  destruct Ha as [(Hne & Hin & -> & ->) | (Hf & -> & -> & ->)].
  - split; [unfold registry_disjoint in Hd; set_solver|]. split; [exact Hn|].
    intros j. rewrite <- Hx.
    destruct (decide (j = id)) as [->|Hj]; set_solver.
  - split; [set_solver|]. split; [lia|]. intros j.
    specialize (Hx j). rewrite Hf in Hx.
    destruct (decide (j = _next_request_id c)) as [->|Hj].
    + split; [lia | set_solver].
    + split.
      * intros [[Hj'|Hj']%elem_of_union | Hj']; [set_solver| |set_solver].
        assert (0 ≤ j < _next_request_id c) by (apply Hx; by left). lia.
      * intros Hr. left. apply elem_of_union. right.
        assert (0 ≤ j < _next_request_id c) as Hr' by lia.
        apply Hx in Hr'. set_solver.
Qed.

Lemma isend_exact (buf size dest tag : Z) (m : machine W) :
  registry_exact (self m) → registry_exact (self (isend buf size dest tag m).2).
Proof.
  intros Hx. destruct (p2p_ready_dec (self m)) as [Hm|Hm].
  - destruct (isend_ready buf size dest tag m Hm) as (id & c1 & r & w & Hid & _ & ->).
    destruct (get_request_id_allocated m) as (id' & c1' & Hid' & Ha & Hfl & _).
    rewrite Hid in Hid'. injection Hid' as <- <-.
    by apply (allocated_register_exact (self m)).
  - by destruct (isend_not_ready buf size dest tag m Hm) as (e & -> & _).
Qed.

Lemma irecv_exact (buf size source tag : Z) (m : machine W) :
  registry_exact (self m) → registry_exact (self (irecv buf size source tag m).2).
Proof.
  intros Hx. destruct (p2p_ready_dec (self m)) as [Hm|Hm].
  - destruct (irecv_ready buf size source tag m Hm) as (id & c1 & r & w & Hid & _ & ->).
    destruct (get_request_id_allocated m) as (id' & c1' & Hid' & Ha & Hfl & _).
    rewrite Hid in Hid'. injection Hid' as <- <-.
    by apply (allocated_register_exact (self m)).
  - by destruct (irecv_not_ready buf size source tag m Hm) as (e & -> & _).
Qed.

Lemma perform_all_exact (ops : list operation) (m : machine W) :
  registry_exact (self m) → registry_exact (self (perform_all ops m)).
Proof.
  revert m. induction ops as [|o ops IH]; intros m Hx; [done|].
  simpl. apply IH. destruct o; simpl.
  - by apply isend_exact.
  - by apply irecv_exact.
  - by apply waitall_exact.
Qed.

(** No identifier is ever lost or made up: from a fresh registry,
    after any sequence of [isend], [irecv] and [waitall] -- returning,
    throwing or timing out -- the identifiers in flight and the free
    ones are together exactly those below the counter. *)
Theorem identifiers_never_leak (m : machine W) (ops : list operation) :
  registry_fresh (self m) →
  ∀ id,
    id ∈ dom (_requests_in_flight (self (perform_all ops m)))
    ∨ id ∈ _free_requests (self (perform_all ops m))
    ↔ 0 ≤ id < _next_request_id (self (perform_all ops m)).
Proof.
  intros Hf. apply (perform_all_exact ops m). by apply registry_fresh_exact.
Qed.

End registry_runs.

Section registry_uses.
Context {W : Type} {env : Environment W} {order : IterationOrder}.

(** An allocation changes the counter and the free set only. *)
Lemma get_request_id_fields (m : machine W) id c1 :
  get_request_id m = (Return id, Machine (world m) (trace m) c1) →
  _ucp_eps c1 = _ucp_eps (self m) ∧ _rank c1 = _rank (self m) ∧
  _ucp_worker c1 = _ucp_worker (self m) ∧ p2p_enabled c1 = p2p_enabled (self m).
Proof.
  rewrite get_request_id_run. case_bool_decide; by intros [= <- <-].
Qed.


(** No point-to-point operation changes how the communicator was set
    up. *)
Lemma perform_ready (o : operation) (m : machine W) :
  p2p_ready (self m) → p2p_ready (self (perform o m)).
Proof.
  intros Hm. destruct o as [buf size dest tag | buf size source tag | fuel ids];
    simpl.
  - destruct (isend_ready buf size dest tag m Hm) as (id & c1 & r & w & Hid & _ & ->).
    destruct (get_request_id_fields m id c1 Hid) as (_ & _ & Hw & Hp).
    unfold p2p_ready in *. simpl. by rewrite Hw, Hp.
  - destruct (irecv_ready buf size source tag m Hm) as (id & c1 & r & w & Hid & _ & ->).
    destruct (get_request_id_fields m id c1 Hid) as (_ & _ & Hw & Hp).
    unfold p2p_ready in *. simpl. by rewrite Hw, Hp.
  - destruct (waitall_self fuel ids m) as (pre & post & _ & ->).
    by apply release_all_ready.
Qed.

Lemma perform_all_ready (ops : list operation) (m : machine W) :
  p2p_ready (self m) → p2p_ready (self (perform_all ops m)).
Proof.
  revert m. induction ops as [|o ops IH]; intros m Hm; [done|].
  simpl. by apply IH, perform_ready.
Qed.

(** On an exact registry [isend] registers under an identifier that was
    not in the table. *)
Lemma isend_registers (m : machine W) (buf size dest tag : Z) :
  let sent := ucp_isend (_ucp_eps (self m) dest) buf size tag default_tag_mask
                (_rank (self m)) in
  registry_exact (self m) →
  p2p_ready (self m) →
  ∃ id m',
    isend buf size dest tag m = (Return id, m') ∧
    (id ∉ dom (_requests_in_flight (self m))) ∧
    _requests_in_flight (self m') =
      <[id := (respond sent (world m)).1]> (_requests_in_flight (self m)) ∧
    world m' = (respond sent (world m)).2 ∧
    trace m' = trace m ++ [sent] ∧
    p2p_ready (self m').
Proof.
  intros sent Hx Hm.
  destruct (isend_ready buf size dest tag m Hm) as (id & c1 & r & w & Hid & Hr & Hrun).
  destruct (get_request_id_allocated m) as (id' & c1' & Hid' & Ha & Hfl & _).
  rewrite Hid in Hid'. injection Hid' as <- <-.
  destruct (get_request_id_fields m id c1 Hid) as (He & Hk & Hw & Hp).
  destruct (allocated_register_exact (self m) c1 id r Hx Ha Hfl) as [Hnew _].
  exists id. eexists. split; [exact Hrun|]. split; [exact Hnew|]. simpl.
  assert (p2p_ready c1) as Hc1.
  { unfold p2p_ready in *. by rewrite Hw, Hp. }
  revert r Hr Hrun. rewrite He, Hk. fold sent. intros r Hr _. rewrite Hr. simpl.
  split; [|done]. rewrite Hfl. unfold map_insert_new.
  apply not_elem_of_dom in Hnew. by rewrite Hnew.
Qed.

Lemma irecv_registers (m : machine W) (buf size source tag : Z) :
  let posted := ucp_irecv (_ucp_worker (self m)) (_ucp_eps (self m) source) buf
                  size tag default_tag_mask source in
  registry_exact (self m) →
  p2p_ready (self m) →
  ∃ id m',
    irecv buf size source tag m = (Return id, m') ∧
    (id ∉ dom (_requests_in_flight (self m))) ∧
    _requests_in_flight (self m') =
      <[id := (respond posted (world m)).1]> (_requests_in_flight (self m)) ∧
    world m' = (respond posted (world m)).2 ∧
    trace m' = trace m ++ [posted] ∧
    p2p_ready (self m').
Proof.
  intros posted Hx Hm.
  destruct (irecv_ready buf size source tag m Hm) as (id & c1 & r & w & Hid & Hr & Hrun).
  destruct (get_request_id_allocated m) as (id' & c1' & Hid' & Ha & Hfl & _).
  rewrite Hid in Hid'. injection Hid' as <- <-.
  destruct (get_request_id_fields m id c1 Hid) as (He & Hk & Hw & Hp).
  destruct (allocated_register_exact (self m) c1 id r Hx Ha Hfl) as [Hnew _].
  exists id. eexists. split; [exact Hrun|]. split; [exact Hnew|]. simpl.
  assert (p2p_ready c1) as Hc1.
  { unfold p2p_ready in *. by rewrite Hw, Hp. }
  revert r Hr Hrun. rewrite He, Hw. fold posted. intros r Hr _. rewrite Hr. simpl.
  split; [|done]. rewrite Hfl. unfold map_insert_new.
  apply not_elem_of_dom in Hnew. by rewrite Hnew.
Qed.

(** In-flight identifiers are unique: on a registry that started fresh,
    whatever was sent, received and waited for since, [isend] returns an
    identifier that is not in the in-flight table, and files under it
    the request UCX built for this very call. *)
Theorem isend_registers_unused_identifier (m0 : machine W)
    (ops : list operation) (buf size dest tag : Z) :
  let m := perform_all ops m0 in
  let sent := ucp_isend (_ucp_eps (self m) dest) buf size tag default_tag_mask
                (_rank (self m)) in
  registry_fresh (self m0) →
  p2p_ready (self m0) →
  ∃ id m',
    isend buf size dest tag m = (Return id, m') ∧
    (id ∉ dom (_requests_in_flight (self m))) ∧
    _requests_in_flight (self m') =
      <[id := (respond sent (world m)).1]> (_requests_in_flight (self m)) ∧
    world m' = (respond sent (world m)).2 ∧
    trace m' = trace m ++ [sent].
Proof.
  intros m sent Hf Hm0.
  destruct (isend_registers m buf size dest tag)
    as (id & m' & Hrun & Hnew & Ht & Hw & Htr & _).
  - apply perform_all_exact. by apply registry_fresh_exact.
  - by apply perform_all_ready.
  - by exists id, m'.
Qed.

(** The same for [irecv]: the identifier it returns is not in the
    in-flight table, and the request UCX posted for this call is filed
    under it. *)
Theorem irecv_registers_unused_identifier (m0 : machine W)
    (ops : list operation) (buf size source tag : Z) :
  let m := perform_all ops m0 in
  let posted := ucp_irecv (_ucp_worker (self m)) (_ucp_eps (self m) source) buf
                  size tag default_tag_mask source in
  registry_fresh (self m0) →
  p2p_ready (self m0) →
  ∃ id m',
    irecv buf size source tag m = (Return id, m') ∧
    (id ∉ dom (_requests_in_flight (self m))) ∧
    _requests_in_flight (self m') =
      <[id := (respond posted (world m)).1]> (_requests_in_flight (self m)) ∧
    world m' = (respond posted (world m)).2 ∧
    trace m' = trace m ++ [posted].
Proof.
  intros m posted Hf Hm0.
  destruct (irecv_registers m buf size source tag)
    as (id & m' & Hrun & Hnew & Ht & Hw & Htr & _).
  - apply perform_all_exact. by apply registry_fresh_exact.
  - by apply perform_all_ready.
  - by exists id, m'.
Qed.

Lemma perform_counter (o : operation) (m : machine W) :
  _next_request_id (self m) ≤ _next_request_id (self (perform o m)).
Proof.
  destruct o as [buf size dest tag | buf size source tag | fuel ids]; simpl.
  - destruct (p2p_ready_dec (self m)) as [Hm|Hm].
    + destruct (isend_allocated buf size dest tag m Hm) as (id & m' & -> & Ha).
      simpl. destruct Ha as [(_ & _ & _ & ->) | (_ & _ & -> & _)]; lia.
    + by destruct (isend_not_ready buf size dest tag m Hm) as (e & -> & _).
  - destruct (p2p_ready_dec (self m)) as [Hm|Hm].
    + destruct (irecv_allocated buf size source tag m Hm) as (id & m' & -> & Ha).
      simpl. destruct Ha as [(_ & _ & _ & ->) | (_ & _ & -> & _)]; lia.
    + by destruct (irecv_not_ready buf size source tag m Hm) as (e & -> & _).
  - destruct (waitall_self fuel ids m) as (pre & post & _ & ->).
    by rewrite release_all_next.
Qed.

(** The counter never goes back, and a wait never moves it. *)
Theorem counter_is_monotonic (m : machine W) (ops : list operation) :
  _next_request_id (self m) ≤ _next_request_id (self (perform_all ops m)) ∧
  ∀ fuel ids,
    _next_request_id (self (waitall fuel ids (perform_all ops m)).2) =
      _next_request_id (self (perform_all ops m)).
Proof.
  split.
  - revert m. induction ops as [|o ops IH]; intros m; [done|].
    simpl. etrans; [apply (perform_counter o)|apply IH].
  - intros fuel ids.
    destruct (waitall_self fuel ids (perform_all ops m)) as (pre & post & _ & ->).
    apply release_all_next.
Qed.

(** One send or receive on a ready communicator whose free set is
    empty takes the counter's value and leaves the free set empty. *)
Lemma perform_send_or_recv (o : operation) (m : machine W) :
  is_send_or_recv o = true →
  p2p_ready (self m) →
  _free_requests (self m) = ∅ →
  _free_requests (self (perform o m)) = ∅ ∧
  _next_request_id (self (perform o m)) = _next_request_id (self m) + 1.
Proof.
  intros Ho Hm Hf.
  destruct o as [buf size dest tag | buf size source tag | fuel ids]; [| |done];
    simpl.
  - destruct (isend_allocated buf size dest tag m Hm) as (id & m' & -> & Ha).
    simpl. by destruct Ha as [(Hne & _) | (_ & _ & -> & ->)].
  - destruct (irecv_allocated buf size source tag m Hm) as (id & m' & -> & Ha).
    simpl. by destruct Ha as [(Hne & _) | (_ & _ & -> & ->)].
Qed.

(** Until something is waited for, identifiers come out in sequence:
    after [n] sends and receives on a fresh ready communicator the
    identifiers in flight are exactly 0 .. n-1, none is free, and the
    next [isend] returns [n]. *)
Theorem identifiers_are_sequential (m0 : machine W) (ops : list operation)
    (buf size dest tag : Z) :
  let m := perform_all ops m0 in
  let n := Z.of_nat (length ops) in
  registry_fresh (self m0) →
  p2p_ready (self m0) →
  forallb is_send_or_recv ops = true →
  _free_requests (self m) = ∅ ∧
  (∀ id, id ∈ dom (_requests_in_flight (self m)) ↔ 0 ≤ id < n) ∧
  (isend buf size dest tag m).1 = Return n.
Proof.
  intros m n Hfresh Hm0 Hops.
  assert (_free_requests (self m) = ∅ ∧
          _next_request_id (self m) = _next_request_id (self m0) + n) as [Hf Hn].
  { subst m n. pose proof Hfresh as (_ & _ & Hf0). clear Hfresh.
    revert m0 Hm0 Hf0. induction ops as [|o ops IH]; intros m0 Hm0 Hf0.
    - simpl. split; [done | lia].
    - simpl in Hops. apply andb_prop in Hops as [Ho Hops].
      destruct (perform_send_or_recv o m0 Ho Hm0 Hf0) as [Hf1 Hn1].
      destruct (IH Hops (perform o m0)) as [Hf Hn];
        [by apply perform_ready | done |].
      simpl. split; [done|]. rewrite Hn, Hn1. simpl length. lia. }
  destruct Hfresh as (Hn0 & Hfresh). rewrite Hn0 in Hn.
  assert (registry_exact (self m)) as (_ & _ & Hx).
  { apply perform_all_exact. apply registry_fresh_exact. by split. }
  split; [done|]. split.
  - intros id. rewrite Z.add_0_l in Hn. rewrite <- Hn, <- Hx, Hf. set_solver.
  - assert (p2p_ready (self m)) as Hm by by apply perform_all_ready.
    destruct (isend_allocated buf size dest tag m Hm) as (id & m' & -> & Ha).
    simpl. destruct Ha as [(Hne & _) | (_ & -> & _)]; [done|]. rewrite Hn. f_equal.
Qed.

End registry_uses.

(** ** When a wait is rejected, and when it cannot fail *)

Section waits.
Context {W : Type} {env : Environment W} {order : IterationOrder}.

(** The first loop returns exactly on arrays without repetition whose
    identifiers are all in the table. *)
Lemma waitall_lookup_returns_iff (ids : list request_t)
    (requests : list ucp_request) (m : machine W) :
  (∃ found, (waitall_lookup ids requests m).1 = Return found) ↔
  NoDup ids ∧ ∀ y, y ∈ ids → y ∈ dom (_requests_in_flight (self m)).
Proof.
  revert requests m. induction ids as [|r rest IH]; intros requests m.
  - split; [|by eexists]. intros _. split; [constructor|].
    intros y Hy. by apply elem_of_nil in Hy.
  - destruct (_requests_in_flight (self m) !! r) as [p|] eqn:Hr.
    + rewrite (waitall_lookup_found _ _ _ _ _ Hr), IH. simpl.
      rewrite dom_delete_L, NoDup_cons. apply elem_of_dom_2 in Hr. split.
      * intros [Hnd Hin]. split; [split; [|done]|].
        -- intros Hrest. apply Hin in Hrest. set_solver.
        -- intros y [->|Hy]%elem_of_cons; [done|]. apply Hin in Hy. set_solver.
      * intros [[Hnr Hnd] Hin]. split; [done|]. intros y Hy.
        apply elem_of_difference. split; [apply Hin; by right|].
        intros ->%elem_of_singleton. done.
    + rewrite (waitall_lookup_missing _ _ _ _ Hr). simpl. split.
      * by intros [found Hf].
      * intros [_ Hin]. apply not_elem_of_dom in Hr. exfalso. apply Hr, Hin. left.
Qed.

(** [waitall] rejects its argument exactly when the array repeats an
    identifier or names one that is not in flight; no transport state
    can make it reject a well-formed array, or accept another. *)
Theorem waitall_invalid_request_iff (fuel : nat) (ids : list request_t)
    (m : machine W) :
  p2p_ready (self m) →
  (∃ x, (waitall fuel ids m).1 = Throw (waitall_invalid_request x)) ↔
  ¬ (NoDup ids ∧ ∀ y, y ∈ ids → y ∈ dom (_requests_in_flight (self m))).
Proof.
  intros Hm. rewrite (waitall_ready _ _ _ Hm).
  set (m0 := Machine (respond time_NULL (world m)).2 (trace m ++ [time_NULL])
               (self m)).
  pose proof (waitall_lookup_returns_iff ids [] m0) as Hiff. simpl in Hiff.
  rewrite <- Hiff. unfold bind.
  destruct (waitall_lookup_outcome ids [] m0)
    as [(found & Hl & _) | (pre & x & post & _ & _ & Hl)]; rewrite Hl; simpl.
  - split.
    + intros [x Hx].
      destruct (waitall_poll _ _ _ _) as [o m'] eqn:Hp.
      simpl in Hx. subst o. by apply waitall_poll_throws in Hp.
    + intros Hn. exfalso. apply Hn. by eexists.
  - split; [|by eexists]. intros _ [found Hf]. done.
Qed.

(** With the transport idle and the clock steady, the progress loop
    asks once and is done. *)
Lemma progress_loop_idle (fuel : nat) (restart : bool) (m : machine W) :
  no_progress →
  progress_loop (S fuel) restart m =
    (Return restart,
     Machine (respond (ucp_progress (_ucp_worker (self m))) (world m)).2
       (trace m ++ [ucp_progress (_ucp_worker (self m))]) (self m)).
Proof.
  intros Hq. cbn [progress_loop]. rewrite bind_this. cbv beta.
  rewrite bind_invoke. by rewrite Hq.
Qed.

Lemma poll_request_synchronous (fuel : nat) (r : ucp_request) (m : machine W) :
  no_progress →
  needs_release r = false →
  let w1 := (respond (ucp_progress (_ucp_worker (self m))) (world m)).2 in
  poll_request (S fuel) r m =
    (Return (true, true),
     Machine (respond (free_ucp_request r) w1).2
       (trace m ++ [ucp_progress (_ucp_worker (self m)); free_ucp_request r])
       (self m)).
Proof.
  intros Hq Hr w1. unfold poll_request.
  unfold bind at 1. rewrite (progress_loop_idle _ _ _ Hq).
  unfold bind at 1. unfold peek. cbn [world]. rewrite Hr. cbn [negb orb].
  unfold bind at 1. unfold ret at 1.
  rewrite bind_invoke. unfold ret. cbn [world trace self].
  by rewrite <- app_assoc.
Qed.

Lemma poll_requests_synchronous (fuel : nat) (start : Z)
    (pending kept : list ucp_request) (m : machine W) :
  no_progress →
  Forall (λ p, needs_release p = false) pending →
  ∃ start' m',
    poll_requests (S fuel) start pending kept m = (Return (start', kept), m') ∧
    self m' = self m ∧
    cleaned (trace m') = cleaned (trace m) ++ pending.
Proof.
  intros Hq. revert start kept m.
  induction pending as [|r rest IH]; intros start kept m Hall.
  - exists start, m. simpl. by rewrite app_nil_r.
  - apply Forall_cons in Hall as [Hr Hall].
    pose proof (poll_request_synchronous fuel r m Hq Hr) as Hone.
    cbv zeta in Hone.
    set (m1 := Machine _ _ _) in Hone.
    set (m2 := Machine (respond time_NULL (world m1)).2
                 (trace m1 ++ [time_NULL]) (self m1)).
    destruct (IH (respond time_NULL (world m1)).1 kept m2 Hall)
      as (start' & m' & Hrest & Hself & Hc).
    exists start', m'. split; [|split; [done|]].
    + cbn [poll_requests]. unfold bind at 1. rewrite Hone.
      rewrite bind_invoke. exact Hrest.
    + rewrite Hc. subst m2 m1. simpl. rewrite !cleaned_app. simpl.
      by rewrite !app_nil_r, <- app_assoc.
Qed.

(** Messages that UCX completed inside [isend]/[irecv] need no luck: on
    a transport that reports no progress at all, with a steady clock, a
    wait for any set of such requests returns after one pass, having
    cleaned up every one of them in the order of the array. *)
Theorem waitall_synchronous_requests (fuel : nat) (ids : list request_t)
    (m : machine W) :
  no_progress →
  steady_clock →
  p2p_ready (self m) →
  NoDup ids →
  (∀ id, id ∈ ids →
     ∃ p, _requests_in_flight (self m) !! id = Some p ∧ needs_release p = false) →
  ∃ found m',
    waitall (S fuel) ids m = (Return tt, m') ∧
    Forall2 (λ x p, _requests_in_flight (self m) !! x = Some p) ids found ∧
    cleaned (trace m') = cleaned (trace m) ++ found ∧
    self m' = release_all ids (self m).
Proof.
  intros Hq Hclock Hm Hnd Hin. rewrite (waitall_ready _ _ _ Hm).
  set (m0 := Machine (respond time_NULL (world m)).2 (trace m ++ [time_NULL])
               (self m)).
  assert (∃ found, (waitall_lookup ids [] m0).1 = Return found) as [found' Hret].
  { apply waitall_lookup_returns_iff. split; [done|]. intros y Hy.
    destruct (Hin y Hy) as (p & Hp & _). by apply elem_of_dom_2 in Hp. }
  destruct (waitall_lookup_outcome ids [] m0)
    as [(found & Hl & Hall) | (pre & x & post & _ & _ & Hl)];
    [|by rewrite Hl in Hret].
  clear Hret found'. simpl in Hl, Hall. unfold bind. rewrite Hl.
  assert (Forall (λ p, needs_release p = false) found) as Hsync.
  { clear Hl. induction Hall as [|x p ids' found' Hp _ IH]; [constructor|].
    apply NoDup_cons in Hnd as [_ Hnd]. constructor.
    - destruct (Hin x) as (p' & Hp' & Hs); [left|]. congruence.
    - apply IH; [done|]. intros id Hid. apply Hin. by right. }
  exists found. destruct found as [|p found].
  - eexists. split; [reflexivity|]. split; [done|]. simpl.
    rewrite cleaned_app. simpl. by rewrite !app_nil_r.
  - set (start := (respond time_NULL (world m)).1).
    set (mL := Machine (respond time_NULL (world m)).2 (trace m ++ [time_NULL])
                 (release_all ids (self m))).
    set (m1 := Machine (respond time_NULL (world mL)).2
                 (trace mL ++ [time_NULL]) (self mL)).
    destruct (poll_requests_synchronous fuel start (p :: found) [] m1 Hq Hsync)
      as (start' & m' & Hpass & Hself & Hc).
    subst m1 mL start. cbn [world trace self] in *.
    exists m'. split; [|split; [done|split]].
    + change ([] ++ p :: found) with (p :: found). cbn [waitall_poll].
      rewrite bind_invoke, bind_ASSERT.
      match goal with
      | |- context [if ?b then _ else _] =>
          replace b with true by (symmetry; apply Z.ltb_lt, Hclock)
      end.
      unfold bind.
      destruct (poll_requests _ _ _ _ _) as [o mm] eqn:E.
      injection Hpass as -> ->. by destruct fuel.
    + rewrite Hc. simpl. rewrite !cleaned_app. simpl. by rewrite !app_nil_r.
    + by rewrite Hself.
Qed.

(** A send followed by a wait for it leaves the table as it was: on a
    registry that started fresh, the identifier [isend] returns is
    accepted by [waitall], and whatever that wait then does --
    return, time out or fail while polling -- the in-flight table is
    back to what it was before the send and the identifier is free. *)
Theorem isend_then_waitall_round_trip (m0 : machine W) (ops : list operation)
    (buf size dest tag : Z) (fuel : nat) :
  let m := perform_all ops m0 in
  registry_fresh (self m0) →
  p2p_ready (self m0) →
  ∃ id m',
    isend buf size dest tag m = (Return id, m') ∧
    (∀ x, (waitall fuel [id] m').1 ≠ Throw (waitall_invalid_request x)) ∧
    _requests_in_flight (self (waitall fuel [id] m').2) =
      _requests_in_flight (self m) ∧
    id ∈ _free_requests (self (waitall fuel [id] m').2).
Proof.
  intros m Hf Hm0.
  destruct (isend_registers m buf size dest tag)
    as (id & m' & Hrun & Hnew & Ht & _ & _ & Hm').
  { apply perform_all_exact. by apply registry_fresh_exact. }
  { by apply perform_all_ready. }
  exists id, m'. split; [exact Hrun|].
  set (m1 := Machine (respond time_NULL (world m')).2 (trace m' ++ [time_NULL])
               (self m')).
  assert (_requests_in_flight (self m1) !! id
          = Some (respond (ucp_isend (_ucp_eps (self m) dest) buf size tag
                             default_tag_mask (_rank (self m))) (world m)).1)
    as Hid.
  { simpl. rewrite Ht. apply lookup_insert_eq. }
  pose proof (waitall_lookup_found id [] [] _ m1 Hid) as Hl.
  split; [|split].
  - intros x Hx. rewrite (waitall_ready _ _ _ Hm') in Hx. fold m1 in Hx.
    unfold bind in Hx. rewrite Hl in Hx. simpl in Hx.
    destruct (waitall_poll _ _ _ _) as [o mm] eqn:Hp. simpl in Hx. subst o.
    by apply waitall_poll_throws in Hp.
  - rewrite (waitall_self_lookup _ _ _ Hm'). fold m1. rewrite Hl. simpl.
    rewrite Ht. apply delete_insert_id. by apply not_elem_of_dom.
  - rewrite (waitall_self_lookup _ _ _ Hm'). fold m1. rewrite Hl. simpl.
    set_solver.
Qed.

End waits.

(** ** Which runtime a method talks to *)

Section frames.
Context {W : Type} {env : Environment W} {order : IterationOrder}.

Lemma calls_only_quiet {A} (P : call → bool) (c : M W A) :
  (∀ m, trace (c m).2 = trace m) → calls_only P c.
Proof. intros Hc m. exists []. by rewrite Hc, app_nil_r. Qed.

Lemma calls_only_ret {A} (P : call → bool) (a : A) : calls_only P (ret (W:=W) a).
Proof. by apply calls_only_quiet. Qed.

Lemma calls_only_throw {A} (P : call → bool) (e : failure) :
  calls_only P (throw (W:=W) (A:=A) e).
Proof. by apply calls_only_quiet. Qed.

Lemma calls_only_diverge {A} (P : call → bool) :
  calls_only P (diverge (W:=W) (A:=A)).
Proof. by apply calls_only_quiet. Qed.

Lemma calls_only_this (P : call → bool) : calls_only P (this (W:=W)).
Proof. by apply calls_only_quiet. Qed.

Lemma calls_only_update (P : call → bool) (f : std_comms → std_comms) :
  calls_only P (update (W:=W) f).
Proof. by apply calls_only_quiet. Qed.

Lemma calls_only_peek {A} (P : call → bool) (f : W → A) : calls_only P (peek f).
Proof. by apply calls_only_quiet. Qed.

Lemma calls_only_ASSERT (P : call → bool) (check : bool) (e : failure) :
  calls_only P (ASSERT (W:=W) check e).
Proof. apply calls_only_quiet. by destruct check. Qed.

Lemma calls_only_invoke (P : call → bool) (c : call) :
  P c = true → calls_only P (invoke c).
Proof.
  intros Hc m. exists [c]. rewrite invoke_run. split; [done|].
  by constructor.
Qed.

Lemma calls_only_bind {A B} (P : call → bool) (c : M W A) (k : A → M W B) :
  calls_only P c → (∀ a, calls_only P (k a)) → calls_only P (bind c k).
Proof.
  intros Hc Hk m. unfold bind. destruct (Hc m) as (t1 & Ht1 & HP1).
  destruct (c m) as [[a|e|] m1]; simpl in *; try by exists t1.
  destruct (Hk a m1) as (t2 & Ht2 & HP2). exists (t1 ++ t2).
  rewrite Ht2, Ht1, <- app_assoc. split; [done|]. by apply Forall_app.
Qed.

End frames.

Ltac calls_only :=
  repeat first
    [ apply calls_only_bind; [| intros ?]
    | apply calls_only_ret | apply calls_only_throw | apply calls_only_diverge
    | apply calls_only_this | apply calls_only_update | apply calls_only_peek
    | apply calls_only_ASSERT
    | match goal with
      | |- calls_only _ (invoke ?c) => apply (calls_only_invoke _ c); reflexivity
      | |- calls_only _ (if ?b then _ else _) => destruct b
      | |- calls_only _ (match ?x with _ => _ end) => destruct x
      end ].

Section frame_claims.
Context {W : Type} {env : Environment W} {order : IterationOrder}.

Lemma get_request_id_calls (P : call → bool) : calls_only P (get_request_id (W:=W)).
Proof. unfold get_request_id. calls_only. Qed.

Lemma p2p_checks_calls (P : call → bool) : calls_only P (p2p_checks (W:=W)).
Proof. unfold p2p_checks. calls_only. Qed.

Lemma waitall_lookup_calls (P : call → bool) ids requests :
  calls_only P (waitall_lookup (W:=W) ids requests).
Proof.
  revert requests. induction ids as [|r rest IH]; intros requests; simpl.
  - calls_only.
  - apply calls_only_bind; [calls_only|]. intros c.
    destruct (_ !! r); [|calls_only].
    apply calls_only_bind; [calls_only|]. intros _.
    apply calls_only_bind; [calls_only|]. intros _. apply IH.
Qed.

Lemma progress_loop_calls fuel restart :
  calls_only is_p2p_call (progress_loop (W:=W) fuel restart).
Proof.
  revert restart. induction fuel as [|fuel IH]; intros restart; simpl.
  - calls_only.
  - apply calls_only_bind; [calls_only|]. intros c.
    apply calls_only_bind; [calls_only|]. intros n.
    destruct (n =? 0); [calls_only | apply IH].
Qed.

Lemma poll_request_calls fuel r :
  calls_only is_p2p_call (poll_request (W:=W) fuel r).
Proof.
  unfold poll_request.
  apply calls_only_bind; [apply progress_loop_calls|]. intros restart.
  calls_only.
Qed.

Lemma poll_requests_calls fuel start pending kept :
  calls_only is_p2p_call (poll_requests (W:=W) fuel start pending kept).
Proof.
  revert start kept. induction pending as [|r rest IH]; intros start kept.
  - simpl. calls_only.
  - cbn [poll_requests].
    apply calls_only_bind; [apply poll_request_calls|]. intros [restart erased].
    apply calls_only_bind; [calls_only|]. intros start'. apply IH.
Qed.

Lemma waitall_poll_calls fuel start requests :
  calls_only is_p2p_call (waitall_poll (W:=W) fuel start requests).
Proof.
  revert start requests. induction fuel as [|fuel IH]; intros start requests;
    destruct requests as [|r rest]; cbn [waitall_poll]; try (calls_only; fail).
  apply calls_only_bind; [calls_only|]. intros now.
  apply calls_only_bind; [calls_only|]. intros _.
  apply calls_only_bind; [apply poll_requests_calls|].
  intros [start' requests']. apply IH.
Qed.

(** The point-to-point engine stays off NCCL and CUDA: every call
    [isend], [irecv] and [waitall] make, on any path, is into UCX or
    the clock. *)
Theorem p2p_methods_call_only_ucx (m : machine W) :
  (∀ buf size dest tag, ∃ t,
     trace (isend buf size dest tag m).2 = trace m ++ t ∧
     Forall (λ c, is_p2p_call c = true) t)
  ∧ (∀ buf size source tag, ∃ t,
       trace (irecv buf size source tag m).2 = trace m ++ t ∧
       Forall (λ c, is_p2p_call c = true) t)
  ∧ (∀ fuel ids, ∃ t,
       trace (waitall fuel ids m).2 = trace m ++ t ∧
       Forall (λ c, is_p2p_call c = true) t).
Proof.
  split; [|split].
  - intros buf size dest tag. revert m. change (calls_only is_p2p_call (isend buf size dest tag)).
    unfold isend.
    apply calls_only_bind; [apply p2p_checks_calls|]. intros _.
    apply calls_only_bind; [apply get_request_id_calls|]. intros request.
    calls_only.
  - intros buf size source tag. revert m.
    change (calls_only is_p2p_call (irecv buf size source tag)).
    unfold irecv.
    apply calls_only_bind; [apply p2p_checks_calls|]. intros _.
    apply calls_only_bind; [apply get_request_id_calls|]. intros request.
    calls_only.
  - intros fuel ids. revert m. change (calls_only is_p2p_call (waitall fuel ids)).
    unfold waitall.
    apply calls_only_bind; [apply p2p_checks_calls|]. intros _.
    apply calls_only_bind; [calls_only|]. intros start.
    apply calls_only_bind; [apply waitall_lookup_calls|]. intros requests.
    apply waitall_poll_calls.
Qed.

Lemma allgatherv_from_calls n root sendbuf recvbuf recvcounts displs datatype stream :
  calls_only is_collective_call
    (allgatherv_from (W:=W) n root sendbuf recvbuf recvcounts displs datatype stream).
Proof.
  revert root. induction n as [|n IH]; intros root; simpl.
  - calls_only.
  - apply calls_only_bind; [calls_only|]. intros c.
    apply calls_only_bind; [calls_only|]. intros status.
    apply calls_only_bind; [unfold NCCL_CHECK; calls_only|]. intros _. apply IH.
Qed.

Lemma syncStream_calls fuel stream :
  calls_only is_collective_call (syncStream (W:=W) fuel stream).
Proof.
  induction fuel as [|fuel IH]; simpl.
  - calls_only.
  - apply calls_only_bind.
    + unfold syncStream_trip. calls_only.
    + intros [status|]; [calls_only | apply IH].
Qed.

Lemma allreduce_calls sendbuff recvbuff count datatype op stream :
  calls_only is_collective_call
    (allreduce (W:=W) sendbuff recvbuff count datatype op stream).
Proof. unfold allreduce, NCCL_CHECK. calls_only. Qed.

Lemma allreduce_keeps sendbuff recvbuff count datatype op stream :
  keeps_self (allreduce (W:=W) sendbuff recvbuff count datatype op stream).
Proof. unfold allreduce, NCCL_CHECK. keeps. Qed.

Lemma allgatherv_from_keeps n root sendbuf recvbuf recvcounts displs datatype stream :
  keeps_self
    (allgatherv_from (W:=W) n root sendbuf recvbuf recvcounts displs datatype stream).
Proof.
  intros m.
  by destruct (allgatherv_from_run n root sendbuf recvbuf recvcounts displs
                 datatype stream m) as [Hs _].
Qed.

(** The collective facade stays off UCX and off the registry: every
    call [allreduce], [bcast], [allgatherv], [syncStream] and [barrier]
    make is into NCCL, CUDA or the scheduler, and on every path --
    returning or throwing -- the object, with its in-flight table, free
    set and counter, is what it was. *)
Theorem collectives_leave_registry_alone (m : machine W) :
  (∀ sendbuff recvbuff count datatype op stream,
     let r := allreduce sendbuff recvbuff count datatype op stream m in
     self r.2 = self m ∧
     ∃ t, trace r.2 = trace m ++ t ∧ Forall (λ c, is_collective_call c = true) t)
  ∧ (∀ buff count datatype root stream,
       let r := bcast buff count datatype root stream m in
       self r.2 = self m ∧
       ∃ t, trace r.2 = trace m ++ t ∧ Forall (λ c, is_collective_call c = true) t)
  ∧ (∀ sendbuf recvbuf recvcounts displs datatype stream,
       let r := allgatherv sendbuf recvbuf recvcounts displs datatype stream m in
       self r.2 = self m ∧
       ∃ t, trace r.2 = trace m ++ t ∧ Forall (λ c, is_collective_call c = true) t)
  ∧ (∀ fuel stream,
       let r := syncStream fuel stream m in
       self r.2 = self m ∧
       ∃ t, trace r.2 = trace m ++ t ∧ Forall (λ c, is_collective_call c = true) t)
  ∧ (∀ fuel,
       let r := barrier fuel m in
       self r.2 = self m ∧
       ∃ t, trace r.2 = trace m ++ t ∧ Forall (λ c, is_collective_call c = true) t).
Proof.
  split; [|split; [|split; [|split]]].
  - intros sendbuff recvbuff count datatype op stream r. split.
    + apply allreduce_keeps.
    + apply allreduce_calls.
  - intros buff count datatype root stream r. split.
    + subst r. revert m. change (keeps_self (bcast buff count datatype root stream)).
      unfold bcast, NCCL_CHECK. keeps.
    + subst r. revert m.
      change (calls_only is_collective_call (bcast buff count datatype root stream)).
      unfold bcast, NCCL_CHECK. calls_only.
  - intros sendbuf recvbuf recvcounts displs datatype stream r. split.
    + subst r. unfold allgatherv. rewrite bind_this. apply allgatherv_from_keeps.
    + subst r. unfold allgatherv. rewrite bind_this. apply allgatherv_from_calls.
  - intros fuel stream r. split; [apply syncStream_keeps | apply syncStream_calls].
  - intros fuel r. split.
    + subst r. revert m. change (keeps_self (barrier fuel)). unfold barrier, CUDA_CHECK.
      pose proof allreduce_keeps. pose proof (syncStream_keeps fuel).
      apply keeps_self_bind; [keeps|]. intros c.
      apply keeps_self_bind; [keeps|]. intros e1.
      apply keeps_self_bind; [keeps|]. intros _.
      apply keeps_self_bind; [keeps|]. intros e2.
      apply keeps_self_bind; [keeps|]. intros _.
      apply keeps_self_bind; [apply allreduce_keeps|]. intros _.
      apply keeps_self_bind; [apply syncStream_keeps|]. intros status. keeps.
    + subst r. revert m. change (calls_only is_collective_call (barrier fuel)).
      unfold barrier, CUDA_CHECK.
      apply calls_only_bind; [calls_only|]. intros c.
      apply calls_only_bind; [calls_only|]. intros e1.
      apply calls_only_bind; [calls_only|]. intros _.
      apply calls_only_bind; [calls_only|]. intros e2.
      apply calls_only_bind; [calls_only|]. intros _.
      apply calls_only_bind; [apply allreduce_calls|]. intros _.
      apply calls_only_bind; [apply syncStream_calls|]. intros status. calls_only.
Qed.

End frame_claims.

(** ** What a successful wait on the stream means *)

Section drained.
Context {W : Type} {env : Environment W}.

(** A trip returns success exactly when the stream query reports
    completion, and that query is then the only call it made. *)
Lemma syncStream_trip_success (stream : Z) (m : machine W) :
  (syncStream_trip stream m).1 = Return (Some commStatusSuccess) ↔
  (query_answer stream m).1 = cudaSuccess.
Proof.
  rewrite syncStream_trip_run. cbv zeta.
  repeat case_bool_decide; simpl; split; intros Hs; try done; congruence.
Qed.

Lemma syncStream_trip_success_machine (stream : Z) (m : machine W) :
  (query_answer stream m).1 = cudaSuccess →
  (syncStream_trip stream m).2 =
    Machine (query_answer stream m).2 (trace m ++ [cudaStreamQuery stream])
      (self m).
Proof.
  intros Hq. rewrite syncStream_trip_run. cbv zeta.
  by rewrite (bool_decide_eq_true_2 _ Hq).
Qed.

Lemma stream_pending_extends (n : nat) (stream : Z) (m m1 : machine W) :
  stream_pending n stream m = Some m1 →
  self m1 = self m ∧ ∃ rest, trace m1 = trace m ++ rest.
Proof.
  revert m. induction n as [|n IH]; intros m Hp.
  - injection Hp as <-. split; [done|]. exists []. by rewrite app_nil_r.
  - simpl in Hp.
    pose proof (syncStream_trip_keeps stream m) as Hk.
    destruct (syncStream_trip_trace stream m) as (rest1 & Ht1).
    destruct (syncStream_trip stream m) as [[[s|]|e|] m']; try done.
    simpl in Hk, Ht1. destruct (IH m' Hp) as (Hs & rest2 & Ht2).
    split; [by rewrite Hs|]. exists ((cudaStreamQuery stream :: rest1) ++ rest2).
    by rewrite Ht2, Ht1, <- app_assoc.
Qed.

Lemma syncStream_success_inv (fuel : nat) (stream : Z) (m m' : machine W) :
  syncStream fuel stream m = (Return commStatusSuccess, m') →
  ∃ n m1,
    (n < fuel)%nat ∧ stream_pending n stream m = Some m1 ∧
    (query_answer stream m1).1 = cudaSuccess ∧
    m' = Machine (query_answer stream m1).2
           (trace m1 ++ [cudaStreamQuery stream]) (self m1).
Proof.
  revert m. induction fuel as [|fuel IH]; intros m; [done|].
  rewrite syncStream_step.
  pose proof (syncStream_trip_success stream m) as Hsucc.
  pose proof (syncStream_trip_success_machine stream m) as Hmach.
  destruct (syncStream_trip stream m) as [[[status|]|e|] m1] eqn:Htrip;
    simpl in *; try done.
  - intros [= -> <-]. exists 0%nat, m. split; [lia|]. split; [done|].
    assert ((query_answer stream m).1 = cudaSuccess) as Hq by by apply Hsucc.
    split; [done|]. by apply Hmach.
  - intros Hrun. destruct (IH m1 Hrun) as (n & m2 & Hlt & Hp & Hq & ->).
    exists (S n), m2. split; [lia|]. split; [|done]. simpl. by rewrite Htrip.
Qed.

(** [syncStream] reports success only for a stream that has drained:
    it returns success exactly when, after some trips that found the
    stream pending, a stream query reported completion -- and then
    that query is the last call it made. *)
Theorem syncStream_success_means_drained (fuel : nat) (stream : Z)
    (m : machine W) :
  ((syncStream fuel stream m).1 = Return commStatusSuccess ↔
   ∃ n m1, (n < fuel)%nat ∧ stream_pending n stream m = Some m1 ∧
           (query_answer stream m1).1 = cudaSuccess)
  ∧ (∀ m',
       syncStream fuel stream m = (Return commStatusSuccess, m') →
       ∃ before,
         trace m' = trace m ++ before ++ [cudaStreamQuery stream] ∧
         self m' = self m).
Proof.
  split; [split|].
  - intros Hs. destruct (syncStream fuel stream m) as [o m'] eqn:Hrun.
    simpl in Hs. subst o.
    destruct (syncStream_success_inv _ _ _ _ Hrun) as (n & m1 & Hlt & Hp & Hq & _).
    by exists n, m1.
  - intros (n & m1 & Hlt & Hp & Hq).
    by destruct (syncStream_pending_then_success n fuel stream m m1 Hp Hq Hlt).
  - intros m' Hrun.
    destruct (syncStream_success_inv _ _ _ _ Hrun) as (n & m1 & _ & Hp & _ & ->).
    destruct (stream_pending_extends _ _ _ _ Hp) as (Hs & rest & Ht).
    exists rest. simpl. split; [by rewrite Ht, <- app_assoc | done].
Qed.

(** [barrier] returns only behind a drained stream: when it returns,
    both memsets and the all-reduce were accepted, they are the first
    three calls it made, and the last one is a query on the
    communicator's stream that CUDA, in the state all the calls before
    it had left, answered with success. *)
Theorem barrier_returns_after_drain (fuel : nat) (m m' : machine W) :
  barrier fuel m = (Return tt, m') →
  let c := self m in
  let M1 := cudaMemsetAsync (_sendbuff c) 1 sizeof_int (_stream c) in
  let M2 := cudaMemsetAsync (_recvbuff c) 1 sizeof_int (_stream c) in
  let R := ncclAllReduce (_sendbuff c) (_recvbuff c) 1 ncclInt ncclSum
             (_nccl_comm c) (_stream c) in
  let Q := cudaStreamQuery (_stream c) in
  (respond M1 (world m)).1 = cudaSuccess ∧
  (respond M2 (respond M1 (world m)).2).1 = cudaSuccess ∧
  (respond R (respond M2 (respond M1 (world m)).2).2).1 = ncclSuccess ∧
  (∃ between,
     trace m' = trace m ++ [M1; M2; R] ++ between ++ [Q] ∧
     (respond Q (replay ([M1; M2; R] ++ between) (world m))).1 = cudaSuccess ∧
     world m' = replay ([M1; M2; R] ++ between ++ [Q]) (world m)) ∧
  self m' = self m.
Proof.
  intros Hrun c M1 M2 R Q. rewrite barrier_run in Hrun. cbv zeta in Hrun.
  fold c M1 M2 R in Hrun.
  case_bool_decide as H1; [|done]. case_bool_decide as H2; [|done].
  case_bool_decide as H3; [|done].
  split; [done|]. split; [done|]. split; [done|].
  apply bind_Return in Hrun as (status & m1 & Hsync & Hassert).
  apply ASSERT_Return in Hassert as [Hst ->].
  apply bool_decide_eq_true in Hst. subst status.
  destruct (syncStream_success_inv _ _ _ _ Hsync) as (n & m2 & _ & Hp & Hq & ->).
  rewrite <- still_pending_eq in Hp.
  destruct (still_pending_replay _ _ _ _ Hp) as (rest & Ht & Hw & Hs).
  simpl in Ht, Hw, Hs. unfold query_answer in Hq. fold Q in Hq.
  simpl. split; [|done]. exists rest. rewrite Ht, <- !app_assoc.
  split; [done|]. rewrite !replay_app, <- Hw. split; [done|]. done.
Qed.

Lemma syncStream_trip_error (stream : Z) (m : machine W) :
  (syncStream_trip stream m).1 = Return (Some commStatusError) ↔
  stream_fails stream m.
Proof.
  rewrite syncStream_trip_run. cbv zeta. unfold stream_fails.
  repeat case_bool_decide; simpl; split; intros Hs; try done;
    try (destruct Hs as [[? ?]|[? ?]]; congruence); auto.
Qed.

(** [syncStream] reports an error exactly when, after some trips that
    found the stream pending, the stream query reported an error other
    than not-ready or the asynchronous error could not be retrieved. *)
Theorem syncStream_error_iff (fuel : nat) (stream : Z) (m : machine W) :
  (syncStream fuel stream m).1 = Return commStatusError ↔
  ∃ n m1, (n < fuel)%nat ∧ stream_pending n stream m = Some m1 ∧
          stream_fails stream m1.
Proof.
  revert m. induction fuel as [|fuel IH]; intros m.
  - split; [done|]. intros (n & _ & Hn & _). lia.
  - rewrite syncStream_step.
    pose proof (syncStream_trip_error stream m) as Herr.
    destruct (syncStream_trip_outcome stream m) as (r & Hr & _).
    destruct (syncStream_trip stream m) as [o m'] eqn:Htrip.
    simpl in Hr, Herr. subst o. destruct r as [status|].
    + split.
      * intros [= ->]. exists 0%nat, m. split; [lia|]. split; [done|].
        by apply Herr.
      * intros (n & m1 & _ & Hp & Hf). destruct n as [|n].
        -- injection Hp as <-. apply Herr in Hf. by injection Hf as ->.
        -- simpl in Hp. by rewrite Htrip in Hp.
    + rewrite IH. split.
      * intros (n & m1 & Hlt & Hp & Hf). exists (S n), m1.
        split; [lia|]. split; [|done]. simpl. by rewrite Htrip.
      * intros (n & m1 & Hlt & Hp & Hf). destruct n as [|n].
        -- injection Hp as <-. apply Herr in Hf. done.
        -- exists n, m1. split; [lia|]. split; [|done].
           simpl in Hp. by rewrite Htrip in Hp.
Qed.

End drained.

(** ** allgatherv: roots and addresses *)

Section gather.
Context {W : Type} {env : Environment W}.

(** [allgatherv] reads its two arrays only at indices below the cluster
    size: every broadcast it issues is the one for a root [r] with
    [0 <= r < _size], and there are at most [_size] of them (none when
    [_size] is not positive). *)
Theorem allgatherv_roots_in_range (sendbuf recvbuf : Z)
    (recvcounts displs : Z → Z) (datatype : comms.datatype_t) (stream : Z)
    (m : machine W) :
  let c := self m in
  let r := allgatherv sendbuf recvbuf recvcounts displs datatype stream m in
  ∃ t,
    trace r.2 = trace m ++ t ∧
    (Z.of_nat (length t) ≤ Z.max 0 (_size c)) ∧
    Forall (λ issued, ∃ root, 0 ≤ root < _size c ∧
                      issued = allgatherv_call c sendbuf recvbuf recvcounts
                                 displs datatype stream root) t.
Proof.
  intros c r.
  destruct (allgatherv_from_run (Z.to_nat (_size c)) 0 sendbuf recvbuf recvcounts
              displs datatype stream m) as (_ & k & Hk & Ht & _).
  fold c in Ht. eexists. split; [exact Ht|]. split.
  - rewrite length_map, length_seqZ. lia.
  - apply Forall_map, Forall_forall. intros root Hroot.
    apply elem_of_seqZ in Hroot. exists root. split; [lia | done].
Qed.

End gather.

(** The byte offset is computed in [size_t] from an [int] displacement.
    Whenever the address [recvbuf + displs[root] * size] lies in the
    address space -- also for a negative displacement -- that address
    is the one the broadcast receives at; and for a displacement that
    is not negative the offset itself never wraps. *)
Theorem allgatherv_address_exact (c : std_comms) (sendbuf recvbuf : Z)
    (recvcounts displs : Z → Z) (datatype : comms.datatype_t)
    (stream root : Z) :
  (0 ≤ recvbuf + displs root * getDatatypeSize datatype < size_t_modulus →
   allgatherv_call c sendbuf recvbuf recvcounts displs datatype stream root =
     ncclBroadcast sendbuf (recvbuf + displs root * getDatatypeSize datatype)
       (recvcounts root) (getNCCLDatatype datatype) root (_nccl_comm c) stream)
  ∧ (0 ≤ displs root ≤ INT_MAX →
     size_t_mul (to_size_t (displs root)) (getDatatypeSize datatype) =
       displs root * getDatatypeSize datatype).
Proof.
  split.
  - intros Hin. unfold allgatherv_call. rewrite ptr_add_size_t_mul.
    unfold ptr_add. by rewrite Z.mod_small.
  - intros Hd. unfold size_t_mul, to_size_t, size_t_modulus, INT_MAX in *.
    rewrite Zmult_mod_idemp_l. apply Z.mod_small.
    destruct datatype; simpl; lia.
Qed.

(** ** The translator *)

(** The translation loses nothing: distinct element types get distinct
    portable tags and distinct NCCL datatypes, distinct reductions get
    distinct NCCL operators, and the element size used for a type is
    its [sizeof]. *)
Theorem translation_is_faithful :
  (∀ T1 T2, getNCCLDatatype (getDataType T1) = getNCCLDatatype (getDataType T2) →
            T1 = T2)
  ∧ (∀ d1 d2, getNCCLDatatype d1 = getNCCLDatatype d2 → d1 = d2)
  ∧ (∀ o1 o2, getNCCLOp o1 = getNCCLOp o2 → o1 = o2)
  ∧ (∀ T, getDatatypeSize (getDataType T) = sizeof T)
  ∧ (∀ d, ∃ T, getDataType T = d).
Proof.
  split; [|split; [|split; [|split]]].
  - intros [] []; simpl; intros H; (done || discriminate H).
  - intros [] []; simpl; intros H; (done || discriminate H).
  - intros [] []; simpl; intros H; (done || discriminate H).
  - by intros [].
  - intros []; [by exists c_char | by exists c_uint8_t | by exists c_int
               | by exists c_uint32_t | by exists c_int64_t
               | by exists c_uint64_t | by exists c_float | by exists c_double].
Qed.

(** ** Construction and injection *)

(** The loop copies the raw array slot by slot, zero becoming the null
    endpoint, and writes nowhere else. *)
Lemma copy_endpoints_spec (n : nat) (i : Z) (size_t_ep_arr ucp_ep_v : Z → Z)
    (j : Z) :
  copy_endpoints n i size_t_ep_arr ucp_ep_v j =
    if bool_decide (i ≤ j < i + Z.of_nat n) then size_t_ep_arr j else ucp_ep_v j.
Proof.
  revert i ucp_ep_v. induction n as [|n IH]; intros i ucp_ep_v.
  - simpl. by rewrite bool_decide_eq_false_2 by lia.
  - cbn [copy_endpoints]. rewrite IH.
    assert (∀ a, (if negb (size_t_ep_arr i =? 0)
                  then array_write a i (size_t_ep_arr i)
                  else array_write a i nullptr) = array_write a i (size_t_ep_arr i))
      as Hw.
    { intros a. destruct (size_t_ep_arr i =? 0) eqn:Hz; [|done].
      apply Z.eqb_eq in Hz. by rewrite Hz. }
    rewrite Hw. unfold array_write.
    destruct (j =? i) eqn:Hj.
    + apply Z.eqb_eq in Hj. subst j.
      rewrite bool_decide_eq_false_2 by lia.
      by rewrite bool_decide_eq_true_2 by lia.
    + apply Z.eqb_neq in Hj.
      case_bool_decide; case_bool_decide; (done || lia).
Qed.

Section construction.
Context {W : Type} {env : Environment W} {order : IterationOrder}.

(** What [inject_comms_py] hands over is ready for use: the registry is
    fresh, the endpoint of every rank is the one the caller's raw array
    held (a zero entry being the null endpoint) and no slot outside
    [0, size) was written; on it the first [isend] to a rank returns
    identifier 0 and passes UCX that rank's endpoint. *)
Theorem injected_communicator (comm ucp_worker : Z) (eps : Z → Z)
    (size rank : Z) (fresh_eps : Z → Z) (stream sendbuff recvbuff : Z)
    (w : W) (buf len dest tag : Z) :
  let c := inject_comms_py comm ucp_worker eps size rank fresh_eps stream
             sendbuff recvbuff in
  ucp_worker ≠ nullptr →
  0 ≤ dest < size →
  registry_fresh c ∧ p2p_ready c ∧
  (∀ i, 0 ≤ i < size → _ucp_eps c i = eps i) ∧
  (∀ i, ¬ (0 ≤ i < size) → _ucp_eps c i = fresh_eps i) ∧
  (isend buf len dest tag (Machine w [] c)).1 = Return 0 ∧
  trace (isend buf len dest tag (Machine w [] c)).2 =
    [ucp_isend (eps dest) buf len tag default_tag_mask rank].
Proof.
  intros c Hw Hdest.
  assert (∀ i, _ucp_eps c i =
               if bool_decide (0 ≤ i < size) then eps i else fresh_eps i) as Heps.
  { intros i. subst c. simpl. rewrite copy_endpoints_spec.
    case_bool_decide; case_bool_decide; (done || lia). }
  assert (p2p_ready c) as Hready by done.
  split; [done|]. split; [done|]. split; [|split].
  - intros i Hi. by rewrite Heps, bool_decide_eq_true_2.
  - intros i Hi. by rewrite Heps, bool_decide_eq_false_2.
  - destruct (isend_ready buf len dest tag (Machine w [] c) Hready)
      as (id & c1 & r & w' & Hid & Hr & ->).
    rewrite get_request_id_run in Hid.
    rewrite (bool_decide_eq_true_2 (_free_requests _ = ∅)) in Hid by done.
    injection Hid as <- <-. cbn [fst snd trace self app].
    change (_ucp_eps (set_next_request_id _ c) dest) with (_ucp_eps c dest).
    by rewrite Heps, bool_decide_eq_true_2.
Qed.

Lemma p2p_checks_run (m : machine W) :
  p2p_checks m =
    (if p2p_enabled (self m) then
       if negb (_ucp_worker (self m) =? nullptr) then Return tt
       else Throw UCX_not_initialized
     else Throw not_initialized_for_p2p, m).
Proof.
  unfold p2p_checks. unfold_monad. simpl.
  by destruct (p2p_enabled (self m)), (negb (_ucp_worker (self m) =? nullptr)).
Qed.

(** A communicator built for collectives only refuses every
    point-to-point call, whatever its three uninitialised members
    happen to hold: [isend], [irecv] and [waitall] throw the
    not-initialised-for-point-to-point failure and change nothing. *)
Theorem collective_only_communicator_refuses_p2p (comm size rank : Z)
    (stream sendbuff recvbuff : Z)
    (stale_worker : Z) (stale_eps : Z → Z) (stale_next : request_t)
    (w : W) (t : list call) :
  let m := Machine w t
             (inject_comms_py_coll comm size rank stream sendbuff recvbuff
                stale_worker stale_eps stale_next) in
  (∀ buf len dest tag,
     isend buf len dest tag m = (Throw not_initialized_for_p2p, m))
  ∧ (∀ buf len source tag,
       irecv buf len source tag m = (Throw not_initialized_for_p2p, m))
  ∧ (∀ fuel ids, waitall fuel ids m = (Throw not_initialized_for_p2p, m)).
Proof.
  intros m. split; [|split]; intros.
  - unfold isend. unfold bind at 1. by rewrite p2p_checks_run.
  - unfold irecv. unfold bind at 1. by rewrite p2p_checks_run.
  - unfold waitall. unfold bind at 1. by rewrite p2p_checks_run.
Qed.

(** The checks come in a fixed order, and the first that fails names
    the failure: a communicator without point-to-point support reports
    that, whatever its worker handle; one with support but a null
    worker reports the missing worker. *)
Theorem p2p_failure_names_first_failed_check (m : machine W)
    (buf len peer tag : Z) (fuel : nat) (ids : list request_t) :
  (p2p_enabled (self m) = false →
   isend buf len peer tag m = (Throw not_initialized_for_p2p, m) ∧
   irecv buf len peer tag m = (Throw not_initialized_for_p2p, m) ∧
   waitall fuel ids m = (Throw not_initialized_for_p2p, m))
  ∧ (p2p_enabled (self m) = true → _ucp_worker (self m) = nullptr →
     isend buf len peer tag m = (Throw UCX_not_initialized, m) ∧
     irecv buf len peer tag m = (Throw UCX_not_initialized, m) ∧
     waitall fuel ids m = (Throw UCX_not_initialized, m)).
Proof.
  split.
  - intros Hp.
    split_and!; [unfold isend | unfold irecv | unfold waitall];
      unfold bind at 1; by rewrite p2p_checks_run, Hp.
  - intros Hp Hw.
    split_and!; [unfold isend | unfold irecv | unfold waitall];
      unfold bind at 1; by rewrite p2p_checks_run, Hp, Hw.
Qed.

End construction.

(** ** Further runs on the scripted environments *)

Module MoreRuns.
Import Mock Scenario FurtherScenario.

Lemma fresh_is_fresh : registry_fresh (self fresh).
Proof. by split_and!. Qed.

Lemma fresh_is_ready : p2p_ready (self fresh).
Proof. split; [reflexivity | discriminate]. Qed.

Lemma identifiers_never_leak_witness :
  registry_fresh (self fresh) ∧
  (0 ∈ dom (_requests_in_flight (self (perform_all history fresh)))
   ∨ 0 ∈ _free_requests (self (perform_all history fresh))
   ↔ 0 ≤ 0 < _next_request_id (self (perform_all history fresh))).
Proof.
  split; [exact fresh_is_fresh|].
  exact (identifiers_never_leak fresh history fresh_is_fresh 0).
Defined.

Lemma isend_registers_unused_identifier_witness :
  registry_fresh (self fresh) ∧ p2p_ready (self fresh) ∧
  ∃ id m',
    isend 8 4 1 9 (perform_all history fresh) = (Return id, m') ∧
    id ∉ dom (_requests_in_flight (self (perform_all history fresh))).
Proof.
  split; [exact fresh_is_fresh|]. split; [exact fresh_is_ready|].
  destruct (isend_registers_unused_identifier fresh history 8 4 1 9
              fresh_is_fresh fresh_is_ready) as (id & m' & Hrun & Hnew & _).
  exists id, m'. split; [exact Hrun | exact Hnew].
Defined.

Lemma irecv_registers_unused_identifier_witness :
  registry_fresh (self fresh) ∧ p2p_ready (self fresh) ∧
  ∃ id m',
    irecv 8 4 1 9 (perform_all history fresh) = (Return id, m') ∧
    id ∉ dom (_requests_in_flight (self (perform_all history fresh))).
Proof.
  split; [exact fresh_is_fresh|]. split; [exact fresh_is_ready|].
  destruct (irecv_registers_unused_identifier fresh history 8 4 1 9
              fresh_is_fresh fresh_is_ready) as (id & m' & Hrun & Hnew & _).
  exists id, m'. split; [exact Hrun | exact Hnew].
Defined.

Lemma identifiers_are_sequential_witness :
  registry_fresh (self fresh) ∧ p2p_ready (self fresh) ∧
  (isend 8 4 1 9
     (perform_all [do_isend 0 4 1 7; do_irecv 16 4 1 7; do_isend 0 4 1 8] fresh)).1
    = Return 3.
Proof.
  split; [exact fresh_is_fresh|]. split; [exact fresh_is_ready|].
  apply (identifiers_are_sequential fresh
           [do_isend 0 4 1 7; do_irecv 16 4 1 7; do_isend 0 4 1 8] 8 4 1 9
           fresh_is_fresh fresh_is_ready eq_refl).
Defined.

Lemma waitall_invalid_request_iff_witness :
  p2p_ready (self one_pending) ∧
  ∃ x, (waitall 20 [0; 0] one_pending).1 = Throw (waitall_invalid_request x).
Proof.
  split; [exact Runs.one_pending_ready|].
  apply (waitall_invalid_request_iff 20 [0; 0] one_pending Runs.one_pending_ready).
  intros [Hnd _]. apply NoDup_cons in Hnd as [Hin _]. apply Hin. left.
Defined.

Lemma isend_then_waitall_round_trip_witness :
  registry_fresh (self fresh) ∧ p2p_ready (self fresh) ∧
  ∃ id m',
    isend 8 4 1 9 (perform_all history fresh) = (Return id, m') ∧
    _requests_in_flight (self (waitall 20 [id] m').2) =
      _requests_in_flight (self (perform_all history fresh)).
Proof.
  split; [exact fresh_is_fresh|]. split; [exact fresh_is_ready|].
  destruct (isend_then_waitall_round_trip fresh history 8 4 1 9 20
              fresh_is_fresh fresh_is_ready) as (id & m' & Hrun & _ & Ht & _).
  exists id, m'. split; [exact Hrun | exact Ht].
Defined.

Lemma syncStream_error_iff_witness :
  (syncStream 5 2 stream_breaks).1 = Return commStatusError.
Proof.
  apply syncStream_error_iff.
  exists 1%nat. eexists. split; [lia|]. split; [vm_compute; reflexivity|].
  left. split; vm_compute; discriminate.
Defined.

Lemma idle_no_progress : no_progress (W:=Z).
Proof. intros w worker. reflexivity. Qed.

Lemma idle_steady_clock : steady_clock (W:=Z).
Proof. intros w. simpl. lia. Qed.

Lemma two_complete_ready : p2p_ready (self two_complete).
Proof. split; [vm_compute; reflexivity | vm_compute; discriminate]. Qed.

Lemma waitall_synchronous_requests_witness :
  no_progress (W:=Z) ∧ steady_clock (W:=Z) ∧
  ∃ found m',
    waitall 1 [1; 0] two_complete = (Return tt, m') ∧
    cleaned (trace m') = cleaned (trace two_complete) ++ found.
Proof.
  split; [exact idle_no_progress|]. split; [exact idle_steady_clock|].
  destruct (waitall_synchronous_requests 0 [1; 0] two_complete
              idle_no_progress idle_steady_clock two_complete_ready)
    as (found & m' & Hrun & _ & Hc & _).
  - apply NoDup_cons. split; [|apply NoDup_singleton].
    intros Hin%list_elem_of_singleton. discriminate Hin.
  - intros id Hid. apply elem_of_cons in Hid as [->|Hid].
    + eexists. split; [vm_compute; reflexivity | reflexivity].
    + apply list_elem_of_singleton in Hid as ->.
      eexists. split; [vm_compute; reflexivity | reflexivity].
  - exists found, m'. split; [exact Hrun | exact Hc].
Defined.

Lemma syncStream_success_means_drained_witness :
  (syncStream 5 2 pending_twice).1 = Return commStatusSuccess ∧
  ∃ n m1, (n < 5)%nat ∧ stream_pending n 2 pending_twice = Some m1 ∧
          (query_answer 2 m1).1 = cudaSuccess.
Proof.
  assert ((syncStream 5 2 pending_twice).1 = Return commStatusSuccess) as Hs.
  { vm_compute. reflexivity. }
  split; [exact Hs|].
  exact (proj1 (proj1 (syncStream_success_means_drained 5 2 pending_twice)) Hs).
Defined.

Lemma barrier_returns_after_drain_witness :
  (barrier 5 collective_only).1 = Return tt ∧
  ∃ between,
    trace (barrier 5 collective_only).2 =
      trace collective_only
      ++ [cudaMemsetAsync 256 1 sizeof_int 2; cudaMemsetAsync 512 1 sizeof_int 2;
          ncclAllReduce 256 512 1 ncclInt ncclSum 1 2]
      ++ between ++ [cudaStreamQuery 2] ∧
    (respond (cudaStreamQuery 2)
       (replay
          ([cudaMemsetAsync 256 1 sizeof_int 2; cudaMemsetAsync 512 1 sizeof_int 2;
            ncclAllReduce 256 512 1 ncclInt ncclSum 1 2] ++ between)
          (world collective_only))).1 = cudaSuccess.
Proof.
  assert ((barrier 5 collective_only).1 = Return tt) as Ho.
  { vm_compute. reflexivity. }
  split; [exact Ho|].
  destruct (barrier_returns_after_drain 5 collective_only
              (barrier 5 collective_only).2
              (Runs.outcome_and_machine _ _ Ho))
    as (_ & _ & _ & (between & Ht & Hq & _) & _).
  exists between. split; [exact Ht | exact Hq].
Defined.

Lemma allgatherv_address_exact_witness :
  0 ≤ 200 + offsets 1 * getDatatypeSize comms.INT < size_t_modulus ∧
  allgatherv_call (self collective_only) 100 200 counts offsets comms.INT 9 1 =
    ncclBroadcast 100 (200 + offsets 1 * getDatatypeSize comms.INT) (counts 1)
      (getNCCLDatatype comms.INT) 1 (_nccl_comm (self collective_only)) 9.
Proof.
  assert (0 ≤ 200 + offsets 1 * getDatatypeSize comms.INT < size_t_modulus) as Hin.
  { vm_compute. split; [discriminate | reflexivity]. }
  split; [exact Hin|].
  exact (proj1 (allgatherv_address_exact (self collective_only) 100 200 counts
                  offsets comms.INT 9 1) Hin).
Defined.

Lemma translation_is_faithful_witness :
  getNCCLDatatype comms.INT = getNCCLDatatype comms.INT ∧ comms.INT = comms.INT.
Proof.
  split; [reflexivity|].
  exact (proj1 (proj2 translation_is_faithful) comms.INT comms.INT eq_refl).
Defined.

Lemma injected_communicator_witness :
  3 ≠ nullptr ∧ 0 ≤ 1 < 2 ∧
  (isend 0 4 1 7
     (Machine stalled []
        (inject_comms_py 1 3 (λ i, 64 + i) 2 0 (λ _, 0) 2 256 512))).1 = Return 0.
Proof.
  assert (3 ≠ nullptr) as Hw by discriminate.
  assert (0 ≤ 1 < 2) as Hd by lia.
  split; [exact Hw|]. split; [exact Hd|].
  exact (proj1 (proj2 (proj2 (proj2 (proj2
           (injected_communicator 1 3 (λ i, 64 + i) 2 0 (λ _, 0) 2 256 512
              stalled 0 4 1 7 Hw Hd)))))).
Defined.

Lemma p2p_failure_names_first_failed_check_witness :
  p2p_enabled (self collective_only) = false ∧
  isend 0 4 1 7 collective_only = (Throw not_initialized_for_p2p, collective_only).
Proof.
  split; [reflexivity|].
  exact (proj1 (proj1 (p2p_failure_names_first_failed_check collective_only
                         0 4 1 7 20 [0]) eq_refl)).
Defined.

End MoreRuns.
